(** * PseudoComponent: expression connections of the dependency graph

    A shallow embedding of [openmdao/main/pseudocomp.py].  A
    [PseudoComponent] is built from a source expression and an optional
    destination expression; it owns the slots [in0 .. inK] and [out0], a
    rewritten source text (with the unit conversion baked in), a validity
    flag and the debugging equation string.

    Python floats are modelled by the canonical rationals [Qc]; Python
    dictionaries by [gmap]; Python exceptions by the left summand of
    [result].  The collaborators that live outside this module (expression
    evaluator, expression printer, unit library, owning graph) appear as the
    classes [ExprLib] and [UnitLib] and the record [Graph]. *)

From Stdlib Require Import QArith Qcanon Ascii String.
From stdpp Require Import base strings list gmap fin_maps pretty.

Open Scope string_scope.
Open Scope Z_scope.

(** ** Exceptions and results *)

Inductive exn_class :=
  | RuntimeError | TypeError | ValueError | AttributeError | KeyError
  | IndexError | ZeroDivisionError | SyntaxError | NameError.

(** An exception is its class together with [str(err)]. *)
Record exn := Exception { exn_cls : exn_class; exn_msg : string }.

Definition result (A : Type) : Type := exn + A.

Definition ok {A} (a : A) : result A := inr a.
Definition raise {A} (c : exn_class) (msg : string) : result A :=
  inl (Exception c msg).

#[global] Instance result_ret : MRet result := fun A a => inr a.
#[global] Instance result_bind : MBind result := fun A B f m =>
  match m with
  | inl e => inl e
  | inr a => f a
  end.

#[global] Instance exn_class_eq_dec : EqDecision exn_class.
Proof. solve_decision. Defined.

#[global] Instance exn_eq_dec : EqDecision exn.
Proof. solve_decision. Defined.

(** The float with an integer value, and the float [n / d]. *)
Definition float (z : Z) : Qc := Q2Qc (inject_Z z).
Definition ratio (n : Z) (d : positive) : Qc := Q2Qc (n # d).

(** ** Python values held by slots *)

(** Modelled from the spec: the unit library identifies a unit by its unit
    string; a physical quantity is a number tagged with such a unit. *)
Record PhysicalQuantity := mkPQ { pq_value : Qc; pq_unit : string }.

(** [UnitsAttrWrapper]: an attribute wrapper carrying a physical quantity
    in its [pq] field. *)
Record UnitsAttrWrapper := mkWrapper { pq : PhysicalQuantity }.

Inductive value :=
  | PyNone
  | PyFloat (x : Qc)
  | PyObject (repr : string)         (* any other unit-free Python object *)
  | PyPQ (q : PhysicalQuantity)      (* PhysicalQuantity and UnitsOnlyPQ *)
  | PyWrapper (w : UnitsAttrWrapper).

#[global] Instance PhysicalQuantity_eq_dec : EqDecision PhysicalQuantity.
Proof. solve_decision. Defined.

#[global] Instance UnitsAttrWrapper_eq_dec : EqDecision UnitsAttrWrapper.
Proof. solve_decision. Defined.

#[global] Instance value_eq_dec : EqDecision value.
Proof. solve_decision. Defined.

(** [isinstance(v, PhysicalQuantity) or isinstance(v, UnitsAttrWrapper)] *)
Definition unit_tagged (v : value) : bool :=
  match v with
  | PyPQ _ | PyWrapper _ => true
  | _ => false
  end.

(** ** Python built-ins used by the module *)

(** [s.find(c)] for a one-character pattern. *)
Fixpoint str_find (c : ascii) (s : string) : option nat :=
  match s with
  | EmptyString => None
  | String a s' => if decide (a = c) then Some 0%nat else S <$> str_find c s'
  end.

(** [s[:n]] *)
Fixpoint str_take (n : nat) (s : string) : string :=
  match n, s with
  | S n', String a s' => String a (str_take n' s')
  | _, _ => EmptyString
  end.

(** ["%d" % n] for a natural number. *)
Definition fmt_d (n : nat) : string := pretty n.

(** *** ["%.15g" % x]

    The shortest of fixed and exponent notation for [x] rounded (half to
    even) to 15 significant digits, trailing zeros removed. *)

Definition pow10 (k : Z) : Z := 10 ^ k.

(** [10^k <= a / d], for [d > 0]. *)
Definition pow10_le (k a d : Z) : bool :=
  if (0 <=? k) then (pow10 k * d <=? a) else (d <=? a * pow10 (- k)).

Fixpoint dec_exponent (fuel : nat) (a d e : Z) : Z :=
  match fuel with
  | O => e
  | S fuel' => if pow10_le (e + 1) a d then dec_exponent fuel' a d (e + 1) else e
  end.

(** Round the rational [a / d] half to even. *)
Definition round_half_even (a d : Z) : Z :=
  let q := a / d in
  let r := a mod d in
  if (2 * r <? d) then q
  else if (d <? 2 * r) then q + 1
  else if Z.even q then q else q + 1.

(** The 15 significant digits of [a / d] and the decimal exponent of the
    first one. *)
Definition sig_digits (a d : Z) : Z * Z :=
  let e0 := dec_exponent (Z.to_nat (Z.log2 a + Z.log2 d + 3)) a d (- (Z.log2 d + 1)) in
  let m := if (0 <=? 14 - e0)
           then round_half_even (a * pow10 (14 - e0)) d
           else round_half_even a (d * pow10 (e0 - 14)) in
  if (m =? pow10 15) then (pow10 14, e0 + 1) else (m, e0).

Fixpoint strip_zeros_rev (s : list ascii) : list ascii :=
  match s with
  | a :: s' => if decide (a = "0"%char) then strip_zeros_rev s' else s
  | [] => []
  end.

Definition strip_trailing_zeros (s : string) : string :=
  string_of_list_ascii (rev (strip_zeros_rev (rev (list_ascii_of_string s)))).

Fixpoint str_drop (n : nat) (s : string) : string :=
  match n, s with
  | S n', String _ s' => str_drop n' s'
  | _, _ => s
  end.

Fixpoint zeros (n : nat) : string :=
  match n with
  | O => ""
  | S n' => "0" +:+ zeros n'
  end.

Definition with_fraction (int frac : string) : string :=
  match strip_trailing_zeros frac with
  | "" => int
  | f => int +:+ "." +:+ f
  end.

Definition fmt_exponent (e : Z) : string :=
  let d := pretty (Z.abs e) in
  (if (e <? 0) then "-" else "+") +:+ (if (Z.abs e <? 10) then "0" +:+ d else d).

Definition fmt_g15 (x : Qc) : string :=
  let n := Qnum (this x) in
  let d := Zpos (Qden (this x)) in
  if (n =? 0) then "0"
  else
    let '(m, e) := sig_digits (Z.abs n) d in
    let ds := pretty m in
    let body :=
      if (-4 <=? e) && (e <? 15) then
        if (0 <=? e)
        then with_fraction (str_take (Z.to_nat (e + 1)) ds) (str_drop (Z.to_nat (e + 1)) ds)
        else with_fraction "0" (zeros (Z.to_nat (- e - 1)) +:+ ds)
      else with_fraction (str_take 1 ds) (str_drop 1 ds) +:+ "e" +:+ fmt_exponent e in
    (if (n <? 0) then "-" else "") +:+ body.

(** ** Expression trees ([ast]) *)

Inductive operator := Add | Sub | Mult | Div.

Inductive AST :=
  | Name (id : string)
  | Num (n : Qc)
  | UnaryOp_USub (operand : AST)
  | BinOp (left : AST) (op : operator) (right : AST).

#[global] Instance operator_eq_dec : EqDecision operator.
Proof. solve_decision. Defined.

#[global] Instance AST_eq_dec : EqDecision AST.
Proof. solve_decision. Defined.

(** Arithmetic of two floats, on their exact values: rounding, infinities
    and nan are outside the model. *)
Definition float_binop (op : operator) (x y : Qc) : result value :=
  match op with
  | Add => ok (PyFloat (x + y)%Qc)
  | Sub => ok (PyFloat (x - y)%Qc)
  | Mult => ok (PyFloat (x * y)%Qc)
  | Div => if decide (y = 0%Qc) then raise ZeroDivisionError "float division by zero"
           else ok (PyFloat (x / y)%Qc)
  end.

(** ** Collaborators *)

(** Variable metadata: a dictionary of strings; only ['units'] is read. *)
Abbreviation metadata := (gmap string string).

(** Modelled from the spec: the unit library.  [find_unit] resolves a unit
    string ([PhysicalQuantity(1.0, u)] fails on an unknown one),
    [conversion_tuple_to u1 u2] returns [(scale, offset)] converting [u1]
    to [u2] or raises [TypeError] when they are incompatible,
    [in_units_of] converts a quantity, and [pq_binop] is the arithmetic of
    unit-tagged operands. *)
Class UnitLib := {
  find_unit : string -> result string;
  conversion_tuple_to : string -> string -> result (Qc * Qc);
  in_units_of : PhysicalQuantity -> string -> result PhysicalQuantity;
  pq_binop : operator -> value -> value -> result value;
  pq_neg : value -> result value;
}.

(** Modelled from the spec: the expression evaluator and the expression
    printer.  [py_eval text d] evaluates an expression text with the names
    bound by [d] (Python's [eval] and [ExprEvaluator.evaluate] with the
    node as scope), [evaluate_gradient] returns the partial derivatives by
    input name, [text_refs] enumerates the references of a text, [ast_parse]
    parses a text into a tree, [print_node] prints
    a tree back to text and [transform_expression] renames the references
    of a text along a mapping. *)
Class ExprLib := {
  py_eval : string -> gmap string value -> result value;
  evaluate_gradient : string -> gmap string value -> result (gmap string Qc);
  text_refs : string -> list string;
  ast_parse : string -> result AST;
  print_node : AST -> string;
  transform_expression : string -> gmap string string -> string;
}.

(** The expression objects handed to the constructor are used through
    [text], [refs()] and [get_metadata()] only. *)
Record Expr := mkExpr {
  text : string;
  refs : list string;
  get_metadata : list (string * metadata);
}.

(** Modelled from the spec: the owning graph.  [_connect] and [disconnect]
    add and remove an edge; [update_inputs node names] refreshes the inputs
    of a node, which the graph does by calling the node's [set] with each
    pair it returns here. *)
Record Graph := mkGraph {
  graph_pathname : string;
  graph_edges : list (string * string);
  update_inputs : string -> result (list (string * value));
}.

Definition _connect (src dest : string) (g : Graph) : Graph :=
  mkGraph (graph_pathname g) (graph_edges g ++ [(src, dest)]) (update_inputs g).

Definition disconnect (src dest : string) (g : Graph) : Graph :=
  mkGraph (graph_pathname g)
          (filter (fun e => e <> (src, dest)) (graph_edges g))
          (update_inputs g).

(** The module-level counter [_count] and the graph the nodes belong to. *)
Record World := mkWorld { _count : nat; parent : Graph }.

Section tree_semantics.
Context `{UnitLib}.

Definition py_binop (op : operator) (v w : value) : result value :=
  match v, w with
  | PyFloat x, PyFloat y => float_binop op x y
  | _, _ => pq_binop op v w
  end.

Definition py_neg (v : value) : result value :=
  match v with
  | PyFloat x => ok (PyFloat (- x)%Qc)
  | _ => pq_neg v
  end.

(** The value of a tree with its names bound by [d]. *)
Fixpoint eval_node (d : gmap string value) (t : AST) : result value :=
  match t with
  | Name id =>
      match d !! id with
      | Some v => ok v
      | None => raise NameError ("name '" +:+ id +:+ "' is not defined")
      end
  | Num n => ok (PyFloat n)
  | UnaryOp_USub a => v ← eval_node d a; py_neg v
  | BinOp l op r =>
      vl ← eval_node d l; vr ← eval_node d r; py_binop op vl vr
  end.
End tree_semantics.

(** ** Module-level functions *)

(** [_get_new_name]: the lock makes the read-and-increment atomic. *)
Definition _get_new_name (w : World) : World * string :=
  (mkWorld (S (_count w)) (parent w), "_pseudo_" +:+ fmt_d (_count w)).

Definition _get_varname (name : string) : string :=
  match str_find "["%char name with
  | None => name
  | Some idx => str_take idx name
  end.

Definition do_nothing_xform (node : AST) : AST := node.

(** Returns an ast for the form [(node+adder)*scaler].  ([ast.copy_location]
    only copies the source position onto the new node.) *)
Definition scaler_adder_xform (node : AST) (scaler adder : Qc) : AST :=
  let newnode :=
    if decide (adder <> 0%Qc) then BinOp node Add (Num adder) else node in
  let newnode :=
    if decide (scaler <> 1%Qc) then BinOp newnode Mult (Num scaler) else newnode in
  newnode.

(** [PhysicalQuantity(value, units)] *)
Definition new_PhysicalQuantity `{UnitLib} (v : Qc) (units : string)
  : result PhysicalQuantity :=
  u ← find_unit units; ok (mkPQ v u).

Definition get_unit_name (q : PhysicalQuantity) : string := pq_unit q.

Definition unit_xform `{UnitLib} (node : AST) (in_units out_units : string)
  : result AST :=
  inpq ← new_PhysicalQuantity 1 in_units;
  outpq ← new_PhysicalQuantity 1 out_units;
  match conversion_tuple_to (pq_unit inpq) (pq_unit outpq) with
  | inr (scaler, adder) => ok (scaler_adder_xform node scaler adder)
  | inl (Exception TypeError _) =>
      raise TypeError ("units '" +:+ get_unit_name inpq
                       +:+ "' are incompatible with assigning units of '"
                       +:+ get_unit_name outpq +:+ "'")
  | inl e => inl e
  end.

Definition DummyExpr : Expr := mkExpr "" [""] [("", ∅)].

Definition _invert_dict (dct : gmap string string) : gmap string string :=
  foldl (fun out kv => <[kv.2 := kv.1]> out) ∅ (map_to_list dct).

(** ** PseudoComponent *)

Module PseudoComponent.

Record t := mk {
  name : string;
  _inmap : gmap string string;     (* mapping of component vars to our inputs *)
  _meta : gmap string metadata;
  _valid : bool;
  _inputs : list string;
  _outdests : list string;
  _srcunits : option string;
  _srcexpr : string;               (* text of the evaluator bound to the node *)
  _destexpr : string;
  _eqn : string;
  _itername : option string;
  J : option (list (list Qc));
  attrs : gmap string value;       (* the slots created by setattr *)
}.

Definition with_valid (b : bool) (pc : t) : t :=
  mk (name pc) (_inmap pc) (_meta pc) b (_inputs pc) (_outdests pc)
     (_srcunits pc) (_srcexpr pc) (_destexpr pc) (_eqn pc) (_itername pc)
     (J pc) (attrs pc).

Definition with_outdests (ds : list string) (pc : t) : t :=
  mk (name pc) (_inmap pc) (_meta pc) (_valid pc) (_inputs pc) ds
     (_srcunits pc) (_srcexpr pc) (_destexpr pc) (_eqn pc) (_itername pc)
     (J pc) (attrs pc).

Definition with_itername (n : string) (pc : t) : t :=
  mk (name pc) (_inmap pc) (_meta pc) (_valid pc) (_inputs pc) (_outdests pc)
     (_srcunits pc) (_srcexpr pc) (_destexpr pc) (_eqn pc) (Some n)
     (J pc) (attrs pc).

Definition with_J (j : list (list Qc)) (pc : t) : t :=
  mk (name pc) (_inmap pc) (_meta pc) (_valid pc) (_inputs pc) (_outdests pc)
     (_srcunits pc) (_srcexpr pc) (_destexpr pc) (_eqn pc) (_itername pc)
     (Some j) (attrs pc).

(** [setattr(self, path, v)] on a slot name ([in<i>] or [out0]).  The other
    attributes of the object are the fields of the record; a slot name is
    none of them. *)
Definition setattr (path : string) (v : value) (pc : t) : t :=
  mk (name pc) (_inmap pc) (_meta pc) (_valid pc) (_inputs pc) (_outdests pc)
     (_srcunits pc) (_srcexpr pc) (_destexpr pc) (_eqn pc) (_itername pc)
     (J pc) (<[path := v]> (attrs pc)).

(** Methods change the node and may raise; what they changed before
    raising stays changed. *)
Definition method (A : Type) : Type := t -> t * result A.

#[global] Instance method_ret : MRet method := fun A a pc => (pc, inr a).
#[global] Instance method_bind : MBind method := fun A B f m pc =>
  match m pc with
  | (pc', inl e) => (pc', inl e)
  | (pc', inr a) => f a pc'
  end.

Definition lift {A} (r : result A) : method A := fun pc => (pc, r).
Definition gets {A} (f : t -> A) : method A := fun pc => (pc, inr (f pc)).
Definition modify (f : t -> t) : method unit := fun pc => (f pc, inr tt).

Fixpoint for_each {A} (f : A -> method unit) (l : list A) : method unit :=
  match l with
  | [] => mret tt
  | x :: l' => f x;; for_each f l'
  end.

(** [d[k]] *)
Definition getitem {V} (d : gmap string V) (k : string) : result V :=
  match d !! k with
  | Some v => ok v
  | None => raise KeyError k
  end.

(** *** Construction *)

Definition in_name (i : nat) : string := "in" +:+ fmt_d i.

Definition enumerate {A} (l : list A) : list (nat * A) :=
  imap (fun i x => (i, x)) l.

(** The effects of [for i,ref in enumerate(srcexpr.refs())]. *)
Definition init_inputs (rs : list string) : list string :=
  (fun ir => in_name ir.1) <$> enumerate rs.

Definition init_inmap (rs : list string) : gmap string string :=
  foldl (fun m ir => <[ir.2 := in_name ir.1]> m) ∅ (enumerate rs).

Definition init_varmap (rs : list string) : gmap string string :=
  foldl (fun m ir => <[_get_varname ir.2 := in_name ir.1]> m) ∅ (enumerate rs).

Definition init_attrs (rs : list string) : gmap string value :=
  foldl (fun m ir => <[in_name ir.1 := PyNone]> m) ∅ (enumerate rs).

(** [for name, meta in e.get_metadata(): d[name] = meta] *)
Definition add_metadata (e : Expr) (d : gmap string metadata)
  : gmap string metadata :=
  foldl (fun m nm => <[nm.1 := nm.2]> m) d (get_metadata e).

(** attach metadata to local var names *)
Definition remap_meta (varmap : gmap string string) (meta : gmap string metadata)
  : result (gmap string metadata) :=
  foldl (fun acc kv =>
           newmeta ← acc;
           local ← getitem varmap kv.1;
           ok (<[local := kv.2]> newmeta))
        (ok ∅) (map_to_list meta).

Section construction.
Context `{ExprLib} `{UnitLib}.

(** replace values with UnitsOnlyPQ objects *)
Definition units_env (inputs : list string) (meta : gmap string metadata)
  : result (gmap string value) :=
  foldl (fun acc inp =>
           tmpdict ← acc;
           m ← getitem meta inp;
           match m !! "units" with
           | Some units =>
               if decide (units <> "")
               then q ← new_PhysicalQuantity 0 units;
                    ok (<[inp := PyPQ q]> tmpdict)
               else ok (<[inp := PyFloat 0]> tmpdict)
           | None => ok (<[inp := PyFloat 0]> tmpdict)
           end)
        (ok ∅) inputs.

(** [pq.unit] *)
Definition unit_of (v : value) : result string :=
  match v with
  | PyPQ q => ok (pq_unit q)
  | _ => raise AttributeError "object has no attribute 'unit'"
  end.

(** The slots and the metadata by local name that the constructor sets
    up from the references of the two expressions. *)
Definition attach_metadata (srcexpr destexpr : Expr)
  : result (gmap string value * gmap string metadata) :=
  let meta := add_metadata srcexpr ∅ in
  let varmap := init_varmap (refs srcexpr) in
  let slots := init_attrs (refs srcexpr) in
  slots ← match refs destexpr with
           | [] => ok slots
           | [_] => ok (<["out0" := PyNone]> slots)
           | _ => raise RuntimeError
                    "output of PseudoComponent must reference only one variable"
           end;
  newmeta ← remap_meta varmap meta;
  let meta := add_metadata destexpr meta in
  ref0 ← match refs destexpr with
          | r :: _ => ok r
          | [] => raise IndexError "list index out of range"
          end;
  outmeta ← getitem meta (_get_varname ref0);
  ok (slots, <["out0" := outmeta]> newmeta).

(** evaluate the src expression using UnitsOnlyPQ objects *)
Definition infer_units (inputs : list string) (meta : gmap string metadata)
    (xformed_src : string) : result string :=
  tmpdict ← units_env inputs meta;
  pqv ← py_eval xformed_src tmpdict;
  unit_of pqv.

(** The unit pass of the constructor: the inferred source unit and the
    rewritten source text. *)
Definition unit_pass (srcexpr destexpr : Expr) (inputs : list string)
    (meta : gmap string metadata) (xformed_src out_units : string)
  : result (string * string) :=
  srcunits ← infer_units inputs meta xformed_src;
  unitnode ← ast_parse xformed_src;
  match unit_xform unitnode srcunits out_units with
  | inl err =>
      raise TypeError ("Can't connect '" +:+ text srcexpr +:+ "' to '"
                       +:+ text destexpr +:+ "': " +:+ exn_msg err)
  | inr unitxform => ok (srcunits, print_node unitxform)
  end.

(** The source text in local names, before the unit pass. *)
Definition local_source (srcexpr : Expr) (translate : bool) : string :=
  if translate then transform_expression (text srcexpr) (init_inmap (refs srcexpr))
  else text srcexpr.

(** [self._meta['out0'].get('units')] *)
Definition out_units_of (meta : gmap string metadata) : result (option string) :=
  outmeta ← getitem meta "out0"; ok (outmeta !! "units").

Definition init (name : string) (srcexpr destexpr : Expr) (translate : bool)
  : result t :=
  let _outdests := if decide (text destexpr <> "") then [text destexpr] else [] in
  let _inputs := init_inputs (refs srcexpr) in
  let _inmap := init_inmap (refs srcexpr) in
  sm ← attach_metadata srcexpr destexpr;
  let slots := sm.1 in
  let _meta := sm.2 in
  let xformed_src := local_source srcexpr translate in
  let xformed_dest :=
    transform_expression (text destexpr) {[ text destexpr := "out0" ]} in
  out_units ← out_units_of _meta;
  ux ← match out_units with
        | Some out_units =>
            r ← unit_pass srcexpr destexpr _inputs _meta xformed_src out_units;
            ok (Some r.1, r.2)
        | None => ok (None, xformed_src)
        end;
  let srcunits := ux.1 in
  let xformed_src := ux.2 in
  (* this is just the equation string (for debugging) *)
  let out := if decide (text destexpr <> "") then text destexpr else "out0" in
  let src :=
    if translate then transform_expression xformed_src (_invert_dict _inmap)
    else xformed_src in
  ok (mk name _inmap _meta false _inputs _outdests srcunits
         xformed_src xformed_dest (out +:+ " = " +:+ src) None None slots).

Definition __init__ (srcexpr : Expr) (destexpr : option Expr) (translate : bool)
    (w : World) : World * result t :=
  let destexpr := default DummyExpr destexpr in
  let '(w', name) := _get_new_name w in
  (w', init name srcexpr destexpr translate).

(** *** Connections *)

Definition get_pathname (g : Graph) (pc : t) : string :=
  graph_pathname g +:+ "." +:+ name pc.

Definition list_connections (is_hidden : bool) (pc : t)
  : list (string * string) :=
  if is_hidden then
    match _outdests pc with
    | dest0 :: _ =>
        (fun src => (src, dest0))
          <$> filter (fun src => src <> "") (map_to_list (_inmap pc)).*1
    | [] => []
    end
  else
    let conns := (fun sd => (sd.1, name pc +:+ "." +:+ sd.2))
                   <$> map_to_list (_inmap pc) in
    match _outdests pc with
    | [] => conns
    | _ => conns ++ ((fun dest => (name pc +:+ ".out0", dest)) <$> _outdests pc)
    end.

Definition make_connections (pc : t) (g : Graph) : Graph :=
  foldl (fun g sd => _connect sd.1 sd.2 g) g (list_connections false pc).

Definition remove_connections (pc : t) (g : Graph) : Graph :=
  foldl (fun g sd => disconnect sd.1 sd.2 g) g (list_connections false pc).

(** *** Run-time interface *)

Definition invalidate_deps (varnames : option (list string)) (force : bool)
  : method unit :=
  modify (with_valid false).

Definition connect (src dest : string) : method unit :=
  modify (with_valid false).

Definition get (name : string) (index : option value) : method value :=
  match index with
  | Some _ => lift (raise RuntimeError "index not supported in PseudoComponent.get")
  | None =>
      slots ← gets attrs;
      match slots !! name with
      | Some v => mret v
      | None => lift (raise AttributeError name)
      end
  end.

Definition set (path : string) (v : value) (index : option value)
  : method unit :=
  match index with
  | Some _ => lift (raise ValueError "index not supported in PseudoComponent.set")
  | None =>
      match v with
      | PyWrapper w => modify (setattr path (PyFloat (pq_value (pq w))))
      | PyPQ q => modify (setattr path (PyFloat (pq_value q)))
      | _ => modify (setattr path v)
      end
  end.

(** Modelled from the spec: [ExprEvaluator.set] writes the value into the
    location the destination text is bound to, through the scope's
    [set]. *)
Definition ExprEvaluator_set (dest : string) (v : value) : method unit :=
  set dest v None.

(** The [if not self._valid] block of [run]: the graph refreshes the
    inputs through [set]. *)
Definition refresh_inputs (g : Graph) : method unit :=
  valid ← gets _valid;
  if valid : bool then mret tt
  else
    nm ← gets name;
    assignments ← lift (update_inputs g nm);
    for_each (fun pv => set pv.1 pv.2 None) assignments.

(** The [isinstance(src, PhysicalQuantity)] block of [run]. *)
Definition in_destination_units (src : value) : method value :=
  match src with
  | PyPQ q =>
      meta ← gets _meta;
      outmeta ← lift (getitem meta "out0");
      match outmeta !! "units" with
      | Some units =>
          q' ← lift (in_units_of q units); mret (PyFloat (pq_value q'))
      | None => mret (PyFloat (pq_value q))
      end
  | _ => mret src
  end.

Definition run (g : Graph) : method unit :=
  refresh_inputs g;;
  srctext ← gets _srcexpr;
  scope ← gets attrs;
  src ← lift (py_eval srctext scope);
  src ← in_destination_units src;
  dest ← gets _destexpr;
  ExprEvaluator_set dest src;;
  modify (with_valid true).

Definition update_outputs (g : Graph) (names : list string) : method unit :=
  run g.

Definition get_wrapped_attr (name : string) (index : option value)
  : method value :=
  match index with
  | Some _ => lift (raise RuntimeError "pseudocomponent attr accessed using an index")
  | None => get name None
  end.

(** The node keeps no metadata of its own for the evaluator: the whole
    dictionary is empty and any single entry is [None]. *)
Definition get_metadata (traitpath : string) (metaname : option string)
  : option metadata :=
  match metaname with
  | None => Some ∅
  | Some _ => None
  end.

Definition get_valid (names : list string) (pc : t) : list bool :=
  replicate (length names) (_valid pc).

Definition is_valid (pc : t) : bool := _valid pc.

Definition set_itername (itername : string) : method unit :=
  modify (with_itername itername).

(** Calculate analytical first derivatives. *)
Definition linearize : method unit :=
  srctext ← gets _srcexpr;
  scope ← gets attrs;
  grad ← lift (evaluate_gradient srctext scope);
  inputs ← gets _inputs;
  row ← lift (mapM (M := result) (getitem grad) inputs);
  modify (with_J [row]).

Definition calc_derivatives (first second : bool) : method unit :=
  (if first then linearize else mret tt);;
  if second then
    nm ← gets name;
    lift (raise RuntimeError
            ("2nd derivatives not supported in pseudocomponent " +:+ nm))
  else mret tt.

Definition provideJ (pc : t)
  : result (list string * list string * list (list Qc)) :=
  match J pc with
  | Some j => ok (_inputs pc, ["out0"], j)
  | None => raise AttributeError "J"
  end.
End construction.

End PseudoComponent.

(** ** ParamPseudoComponent *)

Module ParamPseudoComponent.

(** PseudoComponent used to apply scalers/adders to a parameter. *)
Record t := mk {
  base : PseudoComponent.t;
  scaler : Qc;
  adder : Qc;
}.

(** The source text chosen by the constructor. *)
Definition source_text (scaler adder : Qc) : string :=
  if decide (scaler = 1%Qc /\ adder = 0%Qc) then "in0"
  else if decide (scaler = 1%Qc) then "in0+" +:+ fmt_g15 adder
  else if decide (adder = 0%Qc) then "in0*" +:+ fmt_g15 scaler
  else "(in0+" +:+ fmt_g15 adder +:+ ")*" +:+ fmt_g15 scaler.

Section methods.
Context `{ExprLib} `{UnitLib}.

(** Modelled from the spec: a [ConnectedExprEvaluator] whose scope is
    the node enumerates the references of its text and asks the scope
    for the metadata of each referenced variable. *)
Definition ConnectedExprEvaluator (txt : string) : Expr :=
  mkExpr txt (text_refs txt)
         ((fun r => (_get_varname r,
                     default ∅ (PseudoComponent.get_metadata r None)))
            <$> text_refs txt).

Definition __init__ (target : string) (scaler adder : option Qc) (w : World)
  : World * result t :=
  let scaler := default 1%Qc scaler in
  let adder := default 0%Qc adder in
  let src := source_text scaler adder in
  let srcexpr := ConnectedExprEvaluator src in
  let destexpr := ConnectedExprEvaluator target in
  match PseudoComponent.__init__ srcexpr (Some destexpr) false w with
  | (w', inr b) => (w', ok (mk b scaler adder))
  | (w', inl e) => (w', inl e)
  end.

Definition add_target (target : string) (p : t) : t :=
  mk (PseudoComponent.with_outdests
        (PseudoComponent._outdests (base p) ++ [target]) (base p))
     (scaler p) (adder p).

(** The only connections for a ParamPseudoComponent are output
    connections. *)
Definition list_connections (is_hidden : bool) (p : t)
  : list (string * string) :=
  if is_hidden then []
  else (fun dest => (PseudoComponent.name (base p) +:+ ".out0", dest))
         <$> PseudoComponent._outdests (base p).

(** Inherited methods act on the base part. *)
Definition call {A} (m : PseudoComponent.method A) (p : t) : t * result A :=
  let '(b, r) := m (base p) in (mk b (scaler p) (adder p), r).
End methods.

End ParamPseudoComponent.

(** ** Notions used by the statements *)

(** What [set] stores for a value: unit-tagged values lose their tag. *)
Definition unwrap (v : value) : value :=
  match v with
  | PyWrapper w => PyFloat (pq_value (pq w))
  | PyPQ q => PyFloat (pq_value q)
  | _ => v
  end.

(** The node after the graph has stored a list of inputs through [set]. *)
Definition store_all (l : list (string * value)) (pc : PseudoComponent.t)
  : PseudoComponent.t :=
  foldl (fun p pv => PseudoComponent.setattr pv.1 (unwrap pv.2) p) pc l.

(** The slots after the same stores. *)
Definition store_slots (l : list (string * value)) (slots : gmap string value)
  : gmap string value :=
  foldl (fun d pv => <[pv.1 := unwrap pv.2]> d) slots l.

(** The unit the destination declares, read from the node's metadata. *)
Definition declared_unit (pc : PseudoComponent.t) : option string :=
  m ← PseudoComponent._meta pc !! "out0"; m !! "units".

(** The conversion the unit library returns for two unit strings. *)
Definition library_conversion `{UnitLib} (in_units out_units : string)
  : result (Qc * Qc) :=
  inpq ← new_PhysicalQuantity 1 in_units;
  outpq ← new_PhysicalQuantity 1 out_units;
  conversion_tuple_to (pq_unit inpq) (pq_unit outpq).

(** The evaluator computes on [txt] the value of the tree [t]. *)
Definition evaluator_agrees `{ExprLib} `{UnitLib} (txt : string) (t : AST)
    (d : gmap string value) : Prop :=
  py_eval txt d = eval_node d t.


(** [s] occurs in [msg]. *)
Definition contains (msg s : string) : Prop :=
  exists pre post, msg = pre +:+ s +:+ post.

(** ** A concrete instance of the collaborators *)

(** Modelled from the spec: the expression evaluator, the expression
    printer and the unit library, none of which is part of this module.
    The instance evaluates and prints arithmetic texts over [+ - * /],
    parentheses, decimal literals and variable references, and converts
    between the units of a small table by [dest = (src + offset) * scale].
    The model is run on concrete expressions with it. *)
Module Demo.

(** *** Expression texts *)

Inductive token := TNum (n : Qc) | TName (s : string) | TSym (c : ascii).

Inductive partial :=
  | PNone
  | PName (s : string)
  | PNumber (m : Z) (frac : option nat).

Definition is_digit (c : ascii) : bool :=
  let n := nat_of_ascii c in (48 <=? n)%nat && (n <=? 57)%nat.

Definition is_alpha (c : ascii) : bool :=
  let n := nat_of_ascii c in
  ((65 <=? n)%nat && (n <=? 90)%nat) || ((97 <=? n)%nat && (n <=? 122)%nat)
  || (n =? 95)%nat.

(** Characters that continue a reference: letters, digits, [_], [.] and
    an index in brackets. *)
Definition is_name_char (c : ascii) : bool :=
  let n := nat_of_ascii c in
  is_alpha c || is_digit c || (n =? 46)%nat || (n =? 91)%nat || (n =? 93)%nat.

Definition is_symbol (c : ascii) : bool :=
  let n := nat_of_ascii c in
  (n =? 40)%nat || (n =? 41)%nat || (n =? 42)%nat || (n =? 43)%nat
  || (n =? 45)%nat || (n =? 47)%nat.

Definition digit_val (c : ascii) : Z := Z.of_nat (nat_of_ascii c) - 48.

Definition flush (cur : partial) : list token :=
  match cur with
  | PNone => []
  | PName s => [TName s]
  | PNumber m None => [TNum (float m)]
  | PNumber m (Some k) => [TNum (float m / float (pow10 (Z.of_nat k)))%Qc]
  end.

Definition extend (cur : partial) (c : ascii) : option partial :=
  match cur with
  | PName s => if is_name_char c then Some (PName (s +:+ String c "")) else None
  | PNumber m None =>
      if is_digit c then Some (PNumber (10 * m + digit_val c) None)
      else if (nat_of_ascii c =? 46)%nat then Some (PNumber m (Some 0%nat))
      else None
  | PNumber m (Some k) =>
      if is_digit c then Some (PNumber (10 * m + digit_val c) (Some (S k))) else None
  | PNone => None
  end.

(** Modelled from the spec: the text of an expression read as tokens (the
    evaluator's parser is missing). *)
Fixpoint lex (s : string) (cur : partial) : option (list token) :=
  match s with
  | EmptyString => Some (flush cur)
  | String c s' =>
      match extend cur c with
      | Some cur' => lex s' cur'
      | None =>
          if is_alpha c then (app (flush cur)) <$> lex s' (PName (String c ""))
          else if is_digit c then (app (flush cur)) <$> lex s' (PNumber (digit_val c) None)
          else if is_symbol c then (fun ts => app (flush cur) (TSym c :: ts)) <$> lex s' PNone
          else if (nat_of_ascii c =? 32)%nat then (app (flush cur)) <$> lex s' PNone
          else None
      end
  end.

Inductive mode :=
  | MExpr | MExprRest (l : AST) | MTerm | MTermRest (l : AST) | MFactor.

Definition sym (c : ascii) (t : token) : bool :=
  match t with
  | TSym c' => bool_decide (c = c')
  | _ => false
  end.

Fixpoint parse (fuel : nat) (m : mode) (ts : list token)
  : option (AST * list token) :=
  match fuel with
  | O => None
  | S f =>
      match m with
      | MExpr => r ← parse f MTerm ts; parse f (MExprRest r.1) r.2
      | MExprRest l =>
          match ts with
          | t :: ts' =>
              if sym "+" t then
                r ← parse f MTerm ts'; parse f (MExprRest (BinOp l Add r.1)) r.2
              else if sym "-" t then
                r ← parse f MTerm ts'; parse f (MExprRest (BinOp l Sub r.1)) r.2
              else Some (l, ts)
          | [] => Some (l, ts)
          end
      | MTerm => r ← parse f MFactor ts; parse f (MTermRest r.1) r.2
      | MTermRest l =>
          match ts with
          | t :: ts' =>
              if sym "*" t then
                r ← parse f MFactor ts'; parse f (MTermRest (BinOp l Mult r.1)) r.2
              else if sym "/" t then
                r ← parse f MFactor ts'; parse f (MTermRest (BinOp l Div r.1)) r.2
              else Some (l, ts)
          | [] => Some (l, ts)
          end
      | MFactor =>
          match ts with
          | TNum n :: ts' => Some (Num n, ts')
          | TName x :: ts' => Some (Name x, ts')
          | TSym c :: ts' =>
              if bool_decide (c = "-"%char) then
                r ← parse f MFactor ts'; Some (UnaryOp_USub r.1, r.2)
              else if bool_decide (c = "("%char) then
                r ← parse f MExpr ts';
                match r.2 with
                | t :: ts'' => if sym ")" t then Some (r.1, ts'') else None
                | [] => None
                end
              else None
          | [] => None
          end
      end
  end.

(** Modelled from the spec: parse text into a tree ([ast.parse]). *)
Definition ast_parse (txt : string) : result AST :=
  match lex txt PNone with
  | Some ts =>
      match parse (5 * length ts + 5) MExpr ts with
      | Some (t, []) => ok t
      | _ => raise SyntaxError "invalid syntax"
      end
  | None => raise SyntaxError "invalid syntax"
  end.

Definition op_prec (op : operator) : nat :=
  match op with
  | Add | Sub => 1
  | Mult | Div => 2
  end.

Definition prec (t : AST) : nat :=
  match t with
  | BinOp _ op _ => op_prec op
  | UnaryOp_USub _ => 3
  | _ => 4
  end.

Definition op_text (op : operator) : string :=
  match op with
  | Add => "+" | Sub => "-" | Mult => "*" | Div => "/"
  end.

Definition paren_if (b : bool) (s : string) : string :=
  if b then "(" +:+ s +:+ ")" else s.

(** Modelled from the spec: print a tree back to text ([printexpr] is
    missing); parentheses are kept where the precedence needs them. *)
Fixpoint print_node (t : AST) : string :=
  match t with
  | Name id => id
  | Num n => fmt_g15 n
  | UnaryOp_USub a => "-" +:+ paren_if (prec a <? 3)%nat (print_node a)
  | BinOp l op r =>
      paren_if (prec l <? op_prec op)%nat (print_node l)
      +:+ op_text op
      +:+ paren_if (prec r <=? op_prec op)%nat (print_node r)
  end.

Fixpoint names (t : AST) : list string :=
  match t with
  | Name id => [id]
  | Num _ => []
  | UnaryOp_USub a => names a
  | BinOp l _ r => app (names l) (names r)
  end.

(** Keep the first occurrence of every element. *)
Fixpoint first_occurrences (seen l : list string) : list string :=
  match l with
  | [] => []
  | x :: l' =>
      if bool_decide (x ∈ seen) then first_occurrences seen l'
      else x :: first_occurrences (x :: seen) l'
  end.

(** Modelled from the spec: the references of a text, in the order of
    their first appearance ([ExprEvaluator.refs] is missing). *)
Definition text_refs (txt : string) : list string :=
  match ast_parse txt with
  | inr t => first_occurrences [] (names t)
  | inl _ => []
  end.

Fixpoint rename (m : gmap string string) (t : AST) : AST :=
  match t with
  | Name id => Name (default id (m !! id))
  | Num n => Num n
  | UnaryOp_USub a => UnaryOp_USub (rename m a)
  | BinOp l op r => BinOp (rename m l) op (rename m r)
  end.

(** Modelled from the spec: rewrite the reference names of a text along a
    mapping ([printexpr.transform_expression] is missing). *)
Definition transform_expression (txt : string) (m : gmap string string)
  : string :=
  match ast_parse txt with
  | inr t => print_node (rename m t)
  | inl _ => txt
  end.

(** *** Units *)

Record unit_def := mkUnit { factor : Qc; offset : Qc; powers : string }.

(** Modelled from the spec: a table of units in place of the missing unit
    library; [factor] and [offset] take a unit to the base unit of its
    dimension. *)
Definition unit_table : gmap string unit_def :=
  list_to_map
    [ ("m", mkUnit 1 0 "length");
      ("cm", mkUnit (ratio 1 100) 0 "length");
      ("ft", mkUnit (ratio 381 1250) 0 "length");
      ("inch", mkUnit (ratio 127 5000) 0 "length");
      ("s", mkUnit 1 0 "time");
      ("degK", mkUnit 1 0 "temperature");
      ("degC", mkUnit 1 (ratio 27315 100) "temperature") ].

Definition find_unit (u : string) : result string :=
  match unit_table !! u with
  | Some _ => ok u
  | None => raise ValueError ("no unit named '" +:+ u +:+ "' is defined")
  end.

(** Modelled from the spec: [(scale, offset)] converting the first unit to
    the second, or [TypeError] when the dimensions differ. *)
Definition conversion_tuple_to (u1 u2 : string) : result (Qc * Qc) :=
  match unit_table !! u1, unit_table !! u2 with
  | Some d1, Some d2 =>
      if decide (powers d1 = powers d2)
      then ok (factor d1 / factor d2,
               offset d1 - offset d2 * factor d2 / factor d1)%Qc
      else raise TypeError "Incompatible units"
  | _, _ => raise ValueError "unknown unit"
  end.

Definition in_units_of (q : PhysicalQuantity) (units : string)
  : result PhysicalQuantity :=
  u ← find_unit units;
  so ← conversion_tuple_to (pq_unit q) u;
  ok (mkPQ ((pq_value q + so.2) * so.1)%Qc u).

Definition pq_binop (op : operator) (v w : value) : result value :=
  match op, v, w with
  | Add, PyPQ a, PyPQ b =>
      b' ← in_units_of b (pq_unit a);
      ok (PyPQ (mkPQ (pq_value a + pq_value b')%Qc (pq_unit a)))
  | Sub, PyPQ a, PyPQ b =>
      b' ← in_units_of b (pq_unit a);
      ok (PyPQ (mkPQ (pq_value a - pq_value b')%Qc (pq_unit a)))
  | Mult, PyPQ a, PyFloat y => ok (PyPQ (mkPQ (pq_value a * y)%Qc (pq_unit a)))
  | Mult, PyFloat x, PyPQ b => ok (PyPQ (mkPQ (x * pq_value b)%Qc (pq_unit b)))
  | Div, PyPQ a, PyFloat y =>
      if decide (y = 0%Qc) then raise ZeroDivisionError "float division by zero"
      else ok (PyPQ (mkPQ (pq_value a / y)%Qc (pq_unit a)))
  | _, _, _ => raise TypeError "Incompatible types"
  end.

Definition pq_neg (v : value) : result value :=
  match v with
  | PyPQ a => ok (PyPQ (mkPQ (- pq_value a)%Qc (pq_unit a)))
  | _ => raise TypeError "bad operand type for unary -"
  end.

#[global] Instance units : UnitLib :=
  Build_UnitLib find_unit conversion_tuple_to in_units_of pq_binop pq_neg.

(** *** Evaluation *)

(** Modelled from the spec: evaluate a text to a numeric or unit-tagged
    value ([ExprEvaluator.evaluate] is missing). *)
Definition py_eval (txt : string) (d : gmap string value) : result value :=
  t ← ast_parse txt; eval_node d t.

(** Value and derivative with respect to [wrt]. *)
Fixpoint dual (d : gmap string value) (wrt : string) (t : AST)
  : result (Qc * Qc) :=
  match t with
  | Name id =>
      match d !! id with
      | Some (PyFloat x) => ok (x, if decide (id = wrt) then 1%Qc else 0%Qc)
      | Some _ => raise TypeError "unsupported operand"
      | None => raise NameError id
      end
  | Num n => ok (n, 0%Qc)
  | UnaryOp_USub a => r ← dual d wrt a; ok (- r.1, - r.2)%Qc
  | BinOp l op r =>
      a ← dual d wrt l;
      b ← dual d wrt r;
      match op with
      | Add => ok (a.1 + b.1, a.2 + b.2)%Qc
      | Sub => ok (a.1 - b.1, a.2 - b.2)%Qc
      | Mult => ok (a.1 * b.1, a.2 * b.1 + a.1 * b.2)%Qc
      | Div =>
          if decide (b.1 = 0%Qc) then raise ZeroDivisionError "float division by zero"
          else ok (a.1 / b.1, (a.2 * b.1 - a.1 * b.2) / (b.1 * b.1))%Qc
      end
  end.

(** Modelled from the spec: the gradient with respect to the named inputs
    ([ExprEvaluator.evaluate_gradient] is missing). *)
Definition evaluate_gradient (txt : string) (d : gmap string value)
  : result (gmap string Qc) :=
  t ← ast_parse txt;
  foldr (fun x acc => g ← acc; r ← dual d x t; ok (<[x := r.2]> g))
        (ok ∅) (first_occurrences [] (names t)).

#[global] Instance exprs : ExprLib :=
  Build_ExprLib py_eval evaluate_gradient text_refs ast_parse print_node
                transform_expression.

End Demo.

(** ** The references of a text, in reading order *)

(** The reference a token is, if it is one. *)
Definition token_name (t : Demo.token) : option string :=
  match t with
  | Demo.TName s => Some s
  | _ => None
  end.

(** The references of a text as the lexer meets them, reading from left to
    right, with their repetitions. *)
Definition occurrences (txt : string) : list string :=
  match Demo.lex txt Demo.PNone with
  | Some ts => omap token_name ts
  | None => []%list
  end.

(** [rs] lists, once each, elements of [occ], an element that appears
    earlier in [occ] for the first time coming earlier in [rs]. *)
Definition first_appearance_order (rs occ : list string) : Prop :=
  NoDup rs /\
  (forall x, x ∈ rs -> x ∈ occ) /\
  forall (i j : nat) r r', rs !! i = Some r -> rs !! j = Some r' -> (i < j)%nat ->
    exists p : nat, occ !! p = Some r /\ r' ∉ take (S p) occ.


(** ** Concrete expressions, nodes and graphs used by the examples *)

(** [a + b], both in feet. *)
Definition feet_src : Expr :=
  mkExpr "a+b" (Demo.text_refs "a+b")
         [("a", {[ "units" := "ft" ]}); ("b", {[ "units" := "ft" ]})].

(** [b*a + b]: the reference [b] appears before [a]. *)
Definition swapped_src : Expr :=
  mkExpr "b*a+b" (Demo.text_refs "b*a+b")
         [("a", {[ "units" := "ft" ]}); ("b", ∅)].

Definition one_src : Expr := mkExpr "a" ["a"] [("a", {[ "units" := "ft" ]})].
Definition inch_dst : Expr := mkExpr "c" ["c"] [("c", {[ "units" := "inch" ]})].
Definition seconds_dst : Expr := mkExpr "t" ["t"] [("t", {[ "units" := "s" ]})].
Definition plain_dst : Expr := mkExpr "y" ["y"] [("y", ∅)].
Definition two_var_dst : Expr := mkExpr "p+q" ["p"; "q"] [("p", ∅); ("q", ∅)].

(** The graph hands one foot (unit-tagged) and a plain 2 to the inputs. *)
Definition demo_feed : list (string * value) :=
  [("in0", PyPQ (mkPQ (float 1) "ft")); ("in1", PyFloat (float 2))].

Definition demo_graph : Graph := mkGraph "top" [] (fun _ => ok demo_feed).
Definition idle_graph : Graph := mkGraph "top" [] (fun _ => ok []).
Definition demo_world : World := mkWorld 0 demo_graph.

(** The node built for [c = a + b] with [c] in inches. *)
Definition demo_node : PseudoComponent.t :=
  PseudoComponent.mk "_pseudo_0" {[ "a" := "in0"; "b" := "in1" ]}
     {[ "in0" := {[ "units" := "ft" ]}; "in1" := {[ "units" := "ft" ]};
        "out0" := {[ "units" := "inch" ]} ]}
     false ["in0"; "in1"] ["c"] (Some "ft") "(in0+in1)*12" "out0" "c = (a+b)*12"
     None None {[ "in0" := PyNone; "in1" := PyNone; "out0" := PyNone ]}.

(** The node built for [c = a]. *)
Definition one_node : PseudoComponent.t :=
  PseudoComponent.mk "_pseudo_0" {[ "a" := "in0" ]}
     {[ "in0" := {[ "units" := "ft" ]}; "out0" := {[ "units" := "inch" ]} ]}
     false ["in0"] ["c"] (Some "ft") "in0*12" "out0" "c = a*12"
     None None {[ "in0" := PyNone; "out0" := PyNone ]}.

(** The node built for [y = b*a + b]. *)
Definition swapped_node : PseudoComponent.t :=
  PseudoComponent.mk "_pseudo_0" {[ "b" := "in0"; "a" := "in1" ]}
     {[ "in0" := ∅; "in1" := {[ "units" := "ft" ]}; "out0" := ∅ ]}
     false ["in0"; "in1"] ["y"] None "in0*in1+in0" "out0" "y = b*a+b"
     None None {[ "in0" := PyNone; "in1" := PyNone; "out0" := PyNone ]}.

(** The tree of ["(in0+1)*2"]. *)
Definition scenario_tree : AST :=
  BinOp (BinOp (Name "in0") Add (Num (float 1))) Mult (Num (float 2)).






(** ** Further expressions and nodes used by the examples *)

(** The node built for [c = a] right after [demo_node]. *)
Definition second_node : PseudoComponent.t :=
  PseudoComponent.mk "_pseudo_1" {[ "a" := "in0" ]}
     {[ "in0" := {[ "units" := "ft" ]}; "out0" := {[ "units" := "inch" ]} ]}
     false ["in0"] ["c"] (Some "ft") "in0*12" "out0" "c = a*12"
     None None {[ "in0" := PyNone; "out0" := PyNone ]}.

(** A destination that is a constant: it has a text and no reference. *)
Definition constant_dst : Expr := mkExpr "3" [] [].

(** [a] without a unit. *)
Definition bare_src : Expr := mkExpr "a" ["a"] [("a", ∅)].

(** [c] in a unit the table does not know. *)
Definition furlong_dst : Expr :=
  mkExpr "c" ["c"] [("c", {[ "units" := "furlong" ]})].

(** Two elements of the one array [a]. *)
Definition indexed_src : Expr :=
  mkExpr "a[0]+a[1]" ["a[0]"; "a[1]"] [("a", ∅)].

(** Modelled from the spec: an evaluator whose every expression has the value
    three feet, as an expression over unit-tagged constants has. *)
Definition tagged_exprs : ExprLib :=
  Build_ExprLib (fun _ _ => ok (PyPQ (mkPQ (float 3) "ft")))
                Demo.evaluate_gradient Demo.text_refs Demo.ast_parse
                Demo.print_node Demo.transform_expression.

(** ** Notions used by the further properties *)

(** [n] calls of [_get_new_name] in a row. *)
Fixpoint fresh_names (n : nat) (w : World) : World * list string :=
  match n with
  | O => (w, []%list)
  | S n' =>
      let '(w1, nm) := _get_new_name w in
      let '(w2, l) := fresh_names n' w1 in
      (w2, (nm :: l)%list)
  end.

(** No two keys of the dictionary hold the same value. *)
Definition injective_dict (m : gmap string string) : Prop :=
  forall k1 k2 x, m !! k1 = Some x -> m !! k2 = Some x -> k1 = k2.

(** A call of one of the node's methods, with its arguments. *)
Inductive call :=
  | Call_set (path : string) (v : value) (index : option value)
  | Call_get (name : string) (index : option value)
  | Call_get_wrapped_attr (name : string) (index : option value)
  | Call_run (g : Graph)
  | Call_update_outputs (g : Graph) (names : list string)
  | Call_invalidate_deps (varnames : option (list string)) (force : bool)
  | Call_connect (src dest : string)
  | Call_linearize
  | Call_calc_derivatives (first second : bool)
  | Call_set_itername (itername : string).

(** The names of the slots: [out0] and [in<i>].  They are the attributes that
    [setattr] creates on the object; none of them is one of its fields or
    methods. *)
Definition slot_name (n : string) : Prop :=
  n = "out0" \/ exists i : nat, n = PseudoComponent.in_name i.

(** A call that writes slots only: [set] names a slot, and the graph of a
    [run] hands over values for slots. *)
Definition call_on_slots (c : call) : Prop :=
  match c with
  | Call_set path _ _ => slot_name path
  | Call_run g | Call_update_outputs g _ =>
      forall nm feed, update_inputs g nm = inr feed ->
                      Forall (fun pv : string * value => slot_name pv.1) feed
  | _ => True
  end.

(** The node a call leaves behind, whether it returns or raises. *)
Definition perform `{ExprLib} `{UnitLib} (c : call) (pc : PseudoComponent.t)
  : PseudoComponent.t :=
  match c with
  | Call_set path v index => (PseudoComponent.set path v index pc).1
  | Call_get n index => (PseudoComponent.get n index pc).1
  | Call_get_wrapped_attr n index => (PseudoComponent.get_wrapped_attr n index pc).1
  | Call_run g => (PseudoComponent.run g pc).1
  | Call_update_outputs g names => (PseudoComponent.update_outputs g names pc).1
  | Call_invalidate_deps varnames force =>
      (PseudoComponent.invalidate_deps varnames force pc).1
  | Call_connect src dest => (PseudoComponent.connect src dest pc).1
  | Call_linearize => (PseudoComponent.linearize pc).1
  | Call_calc_derivatives first second =>
      (PseudoComponent.calc_derivatives first second pc).1
  | Call_set_itername itername => (PseudoComponent.set_itername itername pc).1
  end.

Definition perform_all `{ExprLib} `{UnitLib} (cs : list call)
    (pc : PseudoComponent.t) : PseudoComponent.t :=
  foldl (fun p c => perform c p) pc cs.

(** The fields the constructor sets and no method assigns. *)
Definition same_structure (p q : PseudoComponent.t) : Prop :=
  PseudoComponent.name p = PseudoComponent.name q /\
  PseudoComponent._inmap p = PseudoComponent._inmap q /\
  PseudoComponent._meta p = PseudoComponent._meta q /\
  PseudoComponent._inputs p = PseudoComponent._inputs q /\
  PseudoComponent._outdests p = PseudoComponent._outdests q /\
  PseudoComponent._srcunits p = PseudoComponent._srcunits q /\
  PseudoComponent._srcexpr p = PseudoComponent._srcexpr q /\
  PseudoComponent._destexpr p = PseudoComponent._destexpr q /\
  PseudoComponent._eqn p = PseudoComponent._eqn q.

(** No slot holds a unit-tagged value. *)
Definition plain_slots (pc : PseudoComponent.t) : Prop :=
  forall k v, PseudoComponent.attrs pc !! k = Some v -> unit_tagged v = false.

(** The assignments the methods are made of: [_valid], [J], [_itername]
    and a slot, which receives a unit-stripped value. *)
Inductive updated : PseudoComponent.t -> PseudoComponent.t -> Prop :=
  | updated_refl p : updated p p
  | updated_valid b p q : updated p q -> updated p (PseudoComponent.with_valid b q)
  | updated_J j p q : updated p q -> updated p (PseudoComponent.with_J j q)
  | updated_itername n p q :
      updated p q -> updated p (PseudoComponent.with_itername n q)
  | updated_setattr k v p q :
      updated p q -> updated p (PseudoComponent.setattr k (unwrap v) q).

(** * Properties *)

Import PseudoComponent.
Open Scope list_scope.

Ltac by_compute := vm_compute; reflexivity.
Ltac by_decide := apply (bool_decide_unpack _); vm_compute; exact I.

(** ** Strings *)

Lemma append_assoc (a b c : string) : (a +:+ b) +:+ c = a +:+ (b +:+ c).
Proof.
  induction a as [|x a IH]; [reflexivity|].
  change (String x ((a +:+ b) +:+ c) = String x (a +:+ (b +:+ c))).
  by rewrite IH.
Qed.

(** ** Storing inputs *)

Lemma set_spec path v pc :
  set path v None pc = (setattr path (unwrap v) pc, inr tt).
Proof. destruct v; reflexivity. Qed.

Lemma for_each_set l pc :
  for_each (fun pv => set pv.1 pv.2 None) l pc = (store_all l pc, inr tt).
Proof.
  revert pc. induction l as [|[p v] l IH]; intros pc; [reflexivity|].
  cbn [for_each]. unfold mbind, method_bind. rewrite set_spec. cbn. apply IH.
Qed.

(** [store_all] touches the slots only. *)
Ltac store_all_field :=
  unfold store_all, store_slots;
  match goal with
  | |- context [foldl _ ?pc ?l] =>
      revert pc; induction l as [|? ? IH]; intros pc;
      [reflexivity | cbn [foldl]; rewrite IH; reflexivity]
  end.

Lemma store_all_srcexpr l pc : _srcexpr (store_all l pc) = _srcexpr pc.
Proof. store_all_field. Qed.

Lemma store_all_destexpr l pc : _destexpr (store_all l pc) = _destexpr pc.
Proof. store_all_field. Qed.

Lemma store_all_inputs l pc : _inputs (store_all l pc) = _inputs pc.
Proof. store_all_field. Qed.


(** ** Input slots and the reference map *)

Lemma in_name_inj i j : in_name i = in_name j -> i = j.
Proof.
  unfold in_name, fmt_d. intros E. apply (inj (String.app "in")) in E.
  by apply (inj pretty) in E.
Qed.

Lemma enumerate_snoc {A} (l : list A) (x : A) :
  enumerate (l ++ [x]) = enumerate l ++ [(length l, x)].
Proof. unfold enumerate. rewrite imap_app. cbn. by rewrite Nat.add_0_r. Qed.

Lemma init_inputs_snoc rs r :
  init_inputs (rs ++ [r]) = init_inputs rs ++ [in_name (length rs)].
Proof. unfold init_inputs. by rewrite enumerate_snoc, fmap_app. Qed.

Lemma init_inmap_snoc rs r :
  init_inmap (rs ++ [r]) = <[r := in_name (length rs)]> (init_inmap rs).
Proof. unfold init_inmap. by rewrite enumerate_snoc, foldl_app. Qed.

Lemma init_inputs_length rs : length (init_inputs rs) = length rs.
Proof.
  induction rs as [|r rs IH] using rev_ind; [reflexivity|].
  rewrite init_inputs_snoc, !length_app, IH. reflexivity.
Qed.

(** The i-th reference is given the slot [in<i>]. *)
Lemma init_inputs_lookup rs i r :
  rs !! i = Some r -> init_inputs rs !! i = Some (in_name i).
Proof.
  revert i. induction rs as [|x rs IH] using rev_ind; intros i Hi; [done|].
  rewrite init_inputs_snoc.
  destruct (decide (i < length rs)%nat) as [Hlt|Hge].
  - rewrite lookup_app_l in Hi by done.
    rewrite lookup_app_l by (by rewrite init_inputs_length). eauto.
  - apply lookup_lt_Some in Hi as Hlen. rewrite length_app in Hlen. cbn in Hlen.
    assert (i = length rs) as -> by lia.
    rewrite lookup_app_r by (rewrite init_inputs_length; lia).
    rewrite init_inputs_length, Nat.sub_diag. reflexivity.
Qed.

(** The keys of the reference map are the references. *)
Lemma init_inmap_dom rs s : is_Some (init_inmap rs !! s) <-> s ∈ rs.
Proof.
  induction rs as [|x rs IH] using rev_ind.
  - unfold init_inmap. cbn. rewrite lookup_empty.
    split; [intros []; done | inversion 1].
  - rewrite init_inmap_snoc, elem_of_app, list_elem_of_singleton.
    destruct (decide (x = s)) as [->|Hne].
    + rewrite lookup_insert_eq. split; eauto.
    + rewrite lookup_insert_ne by done. rewrite IH.
      split; [auto|]. intros [|]; congruence.
Qed.

Lemma init_inmap_lookup rs i r :
  NoDup rs -> rs !! i = Some r -> init_inmap rs !! r = Some (in_name i).
Proof.
  revert i. induction rs as [|x rs IH] using rev_ind; intros i Hnd Hi; [done|].
  apply NoDup_app in Hnd as (Hnd & Hnotin & _).
  rewrite init_inmap_snoc.
  destruct (decide (i < length rs)%nat) as [Hlt|Hge].
  - rewrite lookup_app_l in Hi by done.
    rewrite lookup_insert_ne; [eauto|].
    intros ->. eapply Hnotin; [|apply list_elem_of_singleton; reflexivity].
    by eapply list_elem_of_lookup_2.
  - apply lookup_lt_Some in Hi as Hlen. rewrite length_app in Hlen. cbn in Hlen.
    assert (i = length rs) as -> by lia.
    rewrite lookup_app_r, Nat.sub_diag in Hi by lia. injection Hi as ->.
    apply lookup_insert_eq.
Qed.

Lemma init_inmap_lookup_inv rs r n :
  NoDup rs -> init_inmap rs !! r = Some n ->
  exists i, rs !! i = Some r /\ n = in_name i.
Proof.
  intros Hnd Hl.
  assert (r ∈ rs) as Hin by (apply init_inmap_dom; eauto).
  apply list_elem_of_lookup in Hin as [i Hi]. exists i. split; [done|].
  rewrite (init_inmap_lookup _ _ _ Hnd Hi) in Hl. congruence.
Qed.

(** ** The inverse dictionary *)

Lemma foldl_invert_lookup (l : list (string * string)) (acc : gmap string string) v :
  NoDup l.*2 ->
  foldl (fun out kv => <[kv.2 := kv.1]> out) acc l !! v
  = match list_find (fun kv => kv.2 = v) l with
    | Some (_, kv) => Some kv.1
    | None => acc !! v
    end.
Proof.
  revert acc. induction l as [|[k v'] l IH]; intros acc Hnd; [reflexivity|].
  cbn [foldl]. apply NoDup_cons in Hnd as [Hnotin Hnd]. rewrite IH by done.
  cbn. destruct (decide (v' = v)) as [->|Hne]; cbn.
  - destruct (list_find _ l) as [[j [k2 v2]]|] eqn:Hf; cbn.
    + apply list_find_Some in Hf as (Hj & Hv & _). cbn in Hv. subst v2.
      exfalso. apply Hnotin. apply list_elem_of_fmap. exists (k2, v).
      split; [done|]. by eapply list_elem_of_lookup_2.
    + by rewrite lookup_insert_eq.
  - destruct (list_find _ l) as [[j [k2 v2]]|] eqn:Hf; cbn; [done|].
    by rewrite lookup_insert_ne.
Qed.

(** On an injective dictionary, [_invert_dict] is the inverse. *)
Lemma _invert_dict_lookup (m : gmap string string) k v :
  (forall k1 k2 x, m !! k1 = Some x -> m !! k2 = Some x -> k1 = k2) ->
  m !! k = Some v -> _invert_dict m !! v = Some k.
Proof.
  intros Hinj Hk. unfold _invert_dict.
  assert (NoDup (map_to_list m).*2) as Hnd.
  { apply NoDup_fmap_2_strong; [|apply NoDup_map_to_list].
    intros [k1 x1] [k2 x2] H1 H2 E. cbn in E. subst x2.
    apply elem_of_map_to_list in H1, H2. f_equal. eauto. }
  rewrite foldl_invert_lookup by done.
  destruct (list_find _ _) as [[j [k2 v2]]|] eqn:Hf; cbn.
  - apply list_find_Some in Hf as (Hj & Hv & _). cbn in Hv. subst v2.
    apply list_elem_of_lookup_2, elem_of_map_to_list in Hj. f_equal. eauto.
  - exfalso. apply list_find_None in Hf. rewrite Forall_forall in Hf.
    apply (Hf (k, v)); [|done]. by apply elem_of_map_to_list.
Qed.

Lemma _invert_dict_init_inmap rs i r :
  NoDup rs -> rs !! i = Some r ->
  _invert_dict (init_inmap rs) !! in_name i = Some r.
Proof.
  intros Hnd Hi. apply _invert_dict_lookup; [|by apply init_inmap_lookup].
  intros k1 k2 x H1 H2.
  apply init_inmap_lookup_inv in H1 as (i1 & Hi1 & ->); [|done].
  apply init_inmap_lookup_inv in H2 as (i2 & Hi2 & E); [|done].
  apply in_name_inj in E. subst i2. congruence.
Qed.

(** ** The pairs of the hidden view *)

Lemma hidden_pairs_spec (m : gmap string string) (d : string) :
  let l := (fun src => (src, d))
             <$> filter (fun src => src <> "") (map_to_list m).*1 in
  NoDup l /\ forall s d', (s, d') ∈ l <-> is_Some (m !! s) /\ s <> "" /\ d' = d.
Proof.
  cbn. split.
  - apply NoDup_fmap_2; [intros ?? [=]; done|].
    apply NoDup_filter, NoDup_fst_map_to_list.
  - intros s d'. rewrite list_elem_of_fmap. split.
    + intros (s' & [= -> ->] & [Hne Hin]%list_elem_of_filter).
      apply list_elem_of_fmap in Hin as ([k x] & -> & Hkx). cbn in *.
      apply elem_of_map_to_list in Hkx. eauto.
    + intros ([x Hx] & Hne & ->). exists s. split; [done|].
      apply list_elem_of_filter. split; [done|].
      apply list_elem_of_fmap. exists (s, x). split; [done|].
      by apply elem_of_map_to_list.
Qed.

(** ** [mapM] in the result monad *)

Lemma mapM_result_inv {A B} (f : A -> result B) (l : list A) (row : list B) :
  mapM (M := result) f l = inr row ->
  length row = length l /\
  forall i x, l !! i = Some x -> exists y, row !! i = Some y /\ f x = inr y.
Proof.
  revert row. induction l as [|a l IH]; intros row.
  - cbn. intros [= <-]. split; [done|]. intros i x; done.
  - cbn. destruct (f a) as [e|b] eqn:Hfa; cbn; [discriminate|].
    destruct (mapM f l) as [e|k] eqn:Hk; cbn; [discriminate|].
    intros [= <-]. destruct (IH k eq_refl) as [Hlen Hall].
    split; [cbn; by rewrite Hlen|].
    intros [|i] x Hx; cbn in *.
    + injection Hx as <-. eauto.
    + eauto.
Qed.

(** ** The parameter node's source text *)

Lemma source_text_forms (scaler adder : Qc) :
  ParamPseudoComponent.source_text scaler adder
  = if decide (scaler = 1%Qc)
    then if decide (adder = 0%Qc) then "in0" else "in0+" +:+ fmt_g15 adder
    else if decide (adder = 0%Qc) then "in0*" +:+ fmt_g15 scaler
         else "(in0+" +:+ fmt_g15 adder +:+ ")*" +:+ fmt_g15 scaler.
Proof.
  unfold ParamPseudoComponent.source_text.
  destruct (decide (scaler = 1%Qc)), (decide (adder = 0%Qc));
    destruct (decide (_ /\ _)) as [[]|Hn]; try reflexivity; try contradiction.
  exfalso. apply Hn. auto.
Qed.

Lemma add_targets_base targets p :
  ParamPseudoComponent.base
    (foldl (fun p t => ParamPseudoComponent.add_target t p) p targets)
  = with_outdests (_outdests (ParamPseudoComponent.base p) ++ targets)
                  (ParamPseudoComponent.base p).
Proof.
  revert p. induction targets as [|t ts IH]; intros [b s a].
  - cbn. rewrite app_nil_r. by destruct b.
  - cbn [foldl]. rewrite IH. cbn. by rewrite <- app_assoc.
Qed.

(** ** The concrete nodes are the constructed ones *)

Lemma demo_node_constructed :
  __init__ feet_src (Some inch_dst) true demo_world
  = (mkWorld 1 demo_graph, inr demo_node).
Proof. by_compute. Qed.

Lemma one_node_constructed :
  __init__ one_src (Some inch_dst) true demo_world
  = (mkWorld 1 demo_graph, inr one_node).
Proof. by_compute. Qed.

Lemma swapped_node_constructed :
  __init__ swapped_src (Some plain_dst) true demo_world
  = (mkWorld 1 demo_graph, inr swapped_node).
Proof. by_compute. Qed.

(** The references of a text are enumerated in the order of their first
    appearance. *)
Example text_refs_first_appearance :
  text_refs "b*a+b" = ["b"; "a"] /\ text_refs "x.value" = ["x.value"].
Proof. split; by_compute. Qed.

(** ** References in the order of their first appearance *)

Lemma sym_inv c t : Demo.sym c t = true -> token_name t = None.
Proof. by destruct t. Qed.

Lemma parse_names f m ts t rest :
  Demo.parse f m ts = Some (t, rest) ->
  Demo.names t ++ omap token_name rest
  = match m with
    | Demo.MExprRest l | Demo.MTermRest l => Demo.names l
    | _ => []
    end ++ omap token_name ts.
Proof.
  revert m ts t rest. induction f as [|f IH]; intros m ts t rest Hp; [discriminate|].
  destruct m; cbn [Demo.parse] in Hp.
  - destruct (Demo.parse f Demo.MTerm ts) as [[t1 r1]|] eqn:E1; [|discriminate].
    cbn in Hp. apply IH in E1, Hp. cbn in *. by rewrite Hp, E1.
  - destruct ts as [|tk ts']; [by injection Hp as <- <-|].
    destruct (Demo.sym "+" tk) eqn:Hplus; [|destruct (Demo.sym "-" tk) eqn:Hminus].
    + destruct (Demo.parse f Demo.MTerm ts') as [[t1 r1]|] eqn:E1; [|discriminate].
      cbn in Hp. apply IH in E1, Hp. cbn in *. rewrite (sym_inv _ _ Hplus).
      by rewrite Hp, <- (assoc_L (++)), E1.
    + destruct (Demo.parse f Demo.MTerm ts') as [[t1 r1]|] eqn:E1; [|discriminate].
      cbn in Hp. apply IH in E1, Hp. cbn in *. rewrite (sym_inv _ _ Hminus).
      by rewrite Hp, <- (assoc_L (++)), E1.
    + by injection Hp as <- <-.
  - destruct (Demo.parse f Demo.MFactor ts) as [[t1 r1]|] eqn:E1; [|discriminate].
    cbn in Hp. apply IH in E1, Hp. cbn in *. by rewrite Hp, E1.
  - destruct ts as [|tk ts']; [by injection Hp as <- <-|].
    destruct (Demo.sym "*" tk) eqn:Hmul; [|destruct (Demo.sym "/" tk) eqn:Hdiv].
    + destruct (Demo.parse f Demo.MFactor ts') as [[t1 r1]|] eqn:E1; [|discriminate].
      cbn in Hp. apply IH in E1, Hp. cbn in *. rewrite (sym_inv _ _ Hmul).
      by rewrite Hp, <- (assoc_L (++)), E1.
    + destruct (Demo.parse f Demo.MFactor ts') as [[t1 r1]|] eqn:E1; [|discriminate].
      cbn in Hp. apply IH in E1, Hp. cbn in *. rewrite (sym_inv _ _ Hdiv).
      by rewrite Hp, <- (assoc_L (++)), E1.
    + by injection Hp as <- <-.
  - destruct ts as [|[n|x|c] ts']; [discriminate|..].
    + by injection Hp as <- <-.
    + by injection Hp as <- <-.
    + destruct (bool_decide (c = "-"%char)).
      * destruct (Demo.parse f Demo.MFactor ts') as [[t1 r1]|] eqn:E1; [|discriminate].
        cbn in Hp. injection Hp as <- <-. apply IH in E1. exact E1.
      * destruct (bool_decide (c = "("%char)); [|discriminate].
        destruct (Demo.parse f Demo.MExpr ts') as [[t1 r1]|] eqn:E1; [|discriminate].
        cbn in Hp. destruct r1 as [|tk r1]; [discriminate|].
        destruct (Demo.sym ")" tk) eqn:Hclose; [|discriminate].
        injection Hp as <- <-. apply IH in E1. cbn in E1.
        by rewrite (sym_inv _ _ Hclose) in E1.
Qed.

(** The names of the tree a text parses to are the references the text
    holds, in reading order. *)
Lemma ast_parse_names txt t :
  Demo.ast_parse txt = inr t -> Demo.names t = occurrences txt.
Proof.
  unfold Demo.ast_parse, occurrences.
  destruct (Demo.lex txt Demo.PNone) as [ts|]; [|discriminate].
  destruct (Demo.parse _ _ ts) as [[t' [|tk rest]]|] eqn:Hp; try discriminate.
  intros [= <-]. apply parse_names in Hp. cbn in Hp. by rewrite app_nil_r in Hp.
Qed.

Lemma first_occurrences_spec seen l :
  NoDup (Demo.first_occurrences seen l) /\
  (forall x, x ∈ Demo.first_occurrences seen l <-> x ∈ l /\ x ∉ seen) /\
  forall (i j : nat) r r',
    Demo.first_occurrences seen l !! i = Some r ->
    Demo.first_occurrences seen l !! j = Some r' -> (i < j)%nat ->
    exists p : nat, l !! p = Some r /\ r' ∉ take (S p) l.
Proof.
  revert seen. induction l as [|x l IH]; intros seen.
  - cbn. split; [constructor|]. split; [|intros ? ? ? ? [=]].
    intros y. split; [by intros ?%elem_of_nil|by intros [?%elem_of_nil _]].
  - cbn [Demo.first_occurrences]. case_bool_decide as Hx.
    + destruct (IH seen) as (Hnd & Hmem & Hord). split; [exact Hnd|]. split.
      * intros y. rewrite Hmem, elem_of_cons. split; [intros [? ?]; auto|].
        intros [[->|Hy] Hns]; [done|by split].
      * intros i j r r' Hi Hj Hij. destruct (Hord i j r r' Hi Hj Hij) as (p & Hp & Hnot).
        exists (S p). split; [exact Hp|]. cbn. rewrite not_elem_of_cons. split; [|exact Hnot].
        intros ->. assert (x ∈ Demo.first_occurrences seen l) as Hin
          by (eapply list_elem_of_lookup_2; exact Hj).
        apply Hmem in Hin as [_ Hns]. by apply Hns.
    + destruct (IH (x :: seen)) as (Hnd & Hmem & Hord). split; [|split].
      * constructor; [|exact Hnd]. rewrite Hmem, elem_of_cons.
        intros [_ Hn]. apply Hn. by left.
      * intros y. rewrite !elem_of_cons, Hmem, elem_of_cons. split.
        -- intros [->|[Hy Hn]]; [split; [by left|exact Hx]|].
           split; [by right|]. intros Hs. apply Hn. by right.
        -- intros [[->|Hy] Hns]; [by left|].
           destruct (decide (y = x)) as [->|Hne]; [by left|right].
           split; [exact Hy|]. by intros [?|?].
      * intros [|i] [|j] r r' Hi Hj Hij; try lia.
        -- cbn in Hi, Hj. injection Hi as <-. exists 0%nat. split; [done|].
           cbn. rewrite not_elem_of_cons. split; [|by intros ?%elem_of_nil].
           intros ->. assert (x ∈ Demo.first_occurrences (x :: seen) l) as Hin
             by (eapply list_elem_of_lookup_2; exact Hj).
           apply Hmem in Hin as [_ Hns]. apply Hns. by left.
        -- cbn in Hi, Hj. destruct (Hord i j r r' Hi Hj ltac:(lia)) as (p & Hp & Hnot).
           exists (S p). split; [exact Hp|]. cbn. rewrite not_elem_of_cons.
           split; [|exact Hnot]. intros ->.
           assert (x ∈ Demo.first_occurrences (x :: seen) l) as Hin
             by (eapply list_elem_of_lookup_2; exact Hj).
           apply Hmem in Hin as [_ Hns]. apply Hns. by left.
Qed.

(** The references the evaluator enumerates for a text are in the order of
    their first appearance in the text, and they are all its references
    when the text parses. *)
Lemma text_refs_order txt :
  first_appearance_order (Demo.text_refs txt) (occurrences txt) /\
  (forall t, Demo.ast_parse txt = inr t ->
     forall x, x ∈ occurrences txt -> x ∈ Demo.text_refs txt).
Proof.
  unfold Demo.text_refs, first_appearance_order.
  destruct (Demo.ast_parse txt) as [e|t] eqn:Hp.
  - split; [|discriminate]. split; [constructor|].
    split; [by intros x ?%elem_of_nil|]. intros ? ? ? ? [=].
  - rewrite (ast_parse_names _ _ Hp).
    destruct (first_occurrences_spec [] (occurrences txt)) as (Hnd & Hmem & Hord).
    split; [split; [exact Hnd|split; [|exact Hord]]|].
    + intros x Hx. by apply Hmem in Hx as [? _].
    + intros _ _ x Hx. apply Hmem. split; [exact Hx|by intros ?%elem_of_nil].
Qed.

(** ** The node, for any collaborators *)

Section node.
Context `{ExprLib} `{UnitLib}.

(** *** The unit rewrite *)

(** The rewritten tree evaluates to [(v + offset) * scale]; the nodes that
    are left out at [offset = 0] and [scale = 1] change nothing. *)
Lemma scaler_adder_xform_sound d node s o v :
  eval_node d node = inr (PyFloat v) ->
  eval_node d (scaler_adder_xform node s o) = inr (PyFloat ((v + o) * s)%Qc).
Proof.
  intros Hv. unfold scaler_adder_xform.
  destruct (decide (o <> 0%Qc)) as [Ho|Ho];
    destruct (decide (s <> 1%Qc)) as [Hs|Hs]; simpl; rewrite ?Hv; simpl.
  - reflexivity.
  - apply dec_stable in Hs. subst s. unfold ok. do 2 f_equal. ring.
  - apply dec_stable in Ho. subst o. unfold ok. do 2 f_equal. ring.
  - apply dec_stable in Ho, Hs. subst. do 2 f_equal. ring.
Qed.


Lemma unit_xform_inv node iu ou t :
  unit_xform node iu ou = inr t ->
  exists s o,
    library_conversion iu ou = inr (s, o) /\ t = scaler_adder_xform node s o.
Proof.
  unfold library_conversion, unit_xform.
  destruct (new_PhysicalQuantity 1 iu) as [e|q1]; [discriminate|]. cbn.
  destruct (new_PhysicalQuantity 1 ou) as [e|q2]; [discriminate|]. cbn.
  destruct (conversion_tuple_to _ _) as [[[] m]|[s o]]; try discriminate.
  intros [= <-]. eauto.
Qed.

Lemma unit_xform_incompatible node iu ou u1 u2 m :
  find_unit iu = inr u1 -> find_unit ou = inr u2 ->
  conversion_tuple_to u1 u2 = inl (Exception TypeError m) ->
  unit_xform node iu ou =
  inl (Exception TypeError ("units '" +:+ u1
         +:+ "' are incompatible with assigning units of '" +:+ u2 +:+ "'")).
Proof.
  intros H1 H2 Hc. unfold unit_xform, new_PhysicalQuantity.
  rewrite H1, H2. cbn. rewrite Hc. reflexivity.
Qed.

Lemma unit_pass_inv src dest inputs meta x ou su xs :
  unit_pass src dest inputs meta x ou = inr (su, xs) ->
  exists tree s o,
    infer_units inputs meta x = inr su /\
    ast_parse x = inr tree /\
    library_conversion su ou = inr (s, o) /\
    xs = print_node (scaler_adder_xform tree s o).
Proof.
  unfold unit_pass.
  destruct (infer_units inputs meta x) as [e|su']; [discriminate|]. cbn.
  destruct (ast_parse x) as [e|tree]; [discriminate|]. cbn.
  destruct (unit_xform tree su' ou) as [e|t] eqn:Hx; [discriminate|].
  intros [= <- <-]. apply unit_xform_inv in Hx as (s & o & Hc & ->).
  exists tree, s, o. auto.
Qed.

(** *** Running *)

Lemma run_unfold g pc :
  run g pc =
  match refresh_inputs g pc with
  | (pc1, inl e) => (pc1, inl e)
  | (pc1, inr _) =>
      match py_eval (_srcexpr pc1) (attrs pc1) with
      | inl e => (pc1, inl e)
      | inr v =>
          match in_destination_units v pc1 with
          | (pc2, inl e) => (pc2, inl e)
          | (pc2, inr v') =>
              (with_valid true (setattr (_destexpr pc2) (unwrap v') pc2), inr tt)
          end
      end
  end.
Proof.
  unfold run, mbind, method_bind.
  destruct (refresh_inputs g pc) as [pc1 [e|[]]]; [reflexivity|].
  unfold gets, lift.
  destruct (py_eval _ _) as [e|v]; [reflexivity|].
  destruct (in_destination_units v pc1) as [pc2 [e|v']]; [reflexivity|].
  unfold ExprEvaluator_set. rewrite set_spec. reflexivity.
Qed.

Lemma run_valid g pc pc' : run g pc = (pc', inr tt) -> _valid pc' = true.
Proof.
  rewrite run_unfold.
  destruct (refresh_inputs g pc) as [pc1 [e|[]]]; [discriminate|].
  destruct (py_eval _ _) as [e|v]; [discriminate|].
  destruct (in_destination_units v pc1) as [pc2 [e|v']]; [discriminate|].
  intros [= <-]. reflexivity.
Qed.

Lemma linearize_unfold pc :
  linearize pc =
  match evaluate_gradient (_srcexpr pc) (attrs pc) with
  | inl e => (pc, inl e)
  | inr grad =>
      match mapM (M := result) (getitem grad) (_inputs pc) with
      | inl e => (pc, inl e)
      | inr row => (with_J [row] pc, inr tt)
      end
  end.
Proof.
  unfold linearize, mbind, method_bind, gets, lift.
  destruct (evaluate_gradient _ _) as [e|grad]; [reflexivity|].
  destruct (mapM _ _) as [e|row]; reflexivity.
Qed.

(** *** What a successful construction has done *)

Lemma init_inv nm src dest tr pc :
  init nm src dest tr = inr pc ->
  exists slots,
    attach_metadata src dest = inr (slots, _meta pc) /\
    name pc = nm /\
    _inmap pc = init_inmap (refs src) /\
    _valid pc = false /\
    _inputs pc = init_inputs (refs src) /\
    _outdests pc = (if decide (text dest <> "") then [text dest] else []) /\
    _destexpr pc = transform_expression (text dest) {[ text dest := "out0" ]} /\
    J pc = None /\
    attrs pc = slots /\
    _eqn pc = ((if decide (text dest <> "") then text dest else "out0") +:+ " = "
               +:+ (if tr
                    then transform_expression (_srcexpr pc) (_invert_dict (_inmap pc))
                    else _srcexpr pc)) /\
    match declared_unit pc with
    | Some out_units =>
        exists su, unit_pass src dest (init_inputs (refs src)) (_meta pc)
                     (local_source src tr) out_units = inr (su, _srcexpr pc)
                   /\ _srcunits pc = Some su
    | None => _srcunits pc = None /\ _srcexpr pc = local_source src tr
    end.
Proof.
  unfold init. intros Hinit.
  destruct (attach_metadata src dest) as [e|[slots meta]] eqn:Ham;
    cbn in Hinit; [discriminate|].
  exists slots.
  unfold out_units_of, getitem in Hinit. unfold declared_unit.
  destruct (meta !! "out0") as [outmeta|] eqn:Hout; cbn in Hinit; [|discriminate].
  destruct (outmeta !! "units") as [ou|] eqn:Hou; cbn in Hinit.
  - destruct (unit_pass _ _ _ _ _ _) as [e|[su xs]] eqn:Hup;
      cbn in Hinit; [discriminate|].
    injection Hinit as <-. cbn. rewrite Hout. cbn. rewrite Hou.
    repeat split; eauto.
  - injection Hinit as <-. cbn. rewrite Hout. cbn. rewrite Hou.
    repeat split; eauto.
Qed.

Lemma __init___inv src dest tr w w' pc :
  __init__ src dest tr w = (w', inr pc) ->
  w' = mkWorld (S (_count w)) (parent w) /\
  init ("_pseudo_" +:+ fmt_d (_count w)) src (default DummyExpr dest) tr = inr pc.
Proof. unfold __init__. cbn. intros [= <- ->]. auto. Qed.

(** *** Claims on the node *)


(** C2.  When the destination declares a unit that the unit library cannot
    convert the inferred source unit to ([conversion_tuple_to] raises
    [TypeError]), construction raises [TypeError] with a message that
    contains both unit names and both expression texts; no node is
    returned and the owning graph is the one the world had. *)
Theorem incompatible_units_rejected
    (srcexpr destexpr : Expr) (translate : bool) (w : World)
    (slots : gmap string value) (meta : gmap string metadata)
    (out_units src_units : string) (tree : AST) (u_in u_out m : string) :
  attach_metadata srcexpr destexpr = inr (slots, meta) ->
  out_units_of meta = inr (Some out_units) ->
  infer_units (init_inputs (refs srcexpr)) meta (local_source srcexpr translate)
  = inr src_units ->
  ast_parse (local_source srcexpr translate) = inr tree ->
  find_unit src_units = inr u_in ->
  find_unit out_units = inr u_out ->
  conversion_tuple_to u_in u_out = inl (Exception TypeError m) ->
  exists msg,
    __init__ srcexpr (Some destexpr) translate w
    = (mkWorld (S (_count w)) (parent w), inl (Exception TypeError msg)) /\
    contains msg u_in /\ contains msg u_out /\
    contains msg (text srcexpr) /\ contains msg (text destexpr).
Proof.
  intros Hmeta Hou Hsu Hparse Hin Hout Hconv.
  eexists. split.
  - unfold __init__, init. cbn. rewrite Hmeta. cbn. rewrite Hou. cbn.
    unfold unit_pass. rewrite Hsu. cbn. rewrite Hparse. cbn.
    rewrite (unit_xform_incompatible _ _ _ _ _ _ Hin Hout Hconv). cbn.
    reflexivity.
  - repeat split.
    + exists ("Can't connect '" +:+ text srcexpr +:+ "' to '" +:+ text destexpr
              +:+ "': " +:+ "units '"),
             ("' are incompatible with assigning units of '" +:+ u_out +:+ "'").
      rewrite !append_assoc. reflexivity.
    + exists ("Can't connect '" +:+ text srcexpr +:+ "' to '" +:+ text destexpr
              +:+ "': " +:+ "units '" +:+ u_in
              +:+ "' are incompatible with assigning units of '"), "'".
      rewrite !append_assoc. reflexivity.
    + exists "Can't connect '",
             ("' to '" +:+ text destexpr +:+ "': " +:+ "units '" +:+ u_in
              +:+ "' are incompatible with assigning units of '" +:+ u_out +:+ "'").
      reflexivity.
    + exists ("Can't connect '" +:+ text srcexpr +:+ "' to '"),
             ("': " +:+ "units '" +:+ u_in
              +:+ "' are incompatible with assigning units of '" +:+ u_out +:+ "'").
      rewrite !append_assoc. reflexivity.
Qed.

(** C3.  A destination expression that references more than one variable
    makes construction raise [RuntimeError] (output of PseudoComponent
    must reference only one variable); the owning graph and its edges are
    untouched. *)
Theorem multi_variable_destination_rejected
    (srcexpr destexpr : Expr) (translate : bool) (w : World) :
  (1 < length (refs destexpr))%nat ->
  exists w',
    __init__ srcexpr (Some destexpr) translate w
    = (w', inl (Exception RuntimeError
                  "output of PseudoComponent must reference only one variable")) /\
    parent w' = parent w /\
    graph_edges (parent w') = graph_edges (parent w).
Proof.
  intros Hlen. exists (mkWorld (S (_count w)) (parent w)).
  split; [|split; reflexivity].
  unfold __init__, init, attach_metadata. cbn.
  destruct (refs destexpr) as [|r0 [|r1 rs]]; cbn in Hlen; try lia.
  reflexivity.
Qed.

(** C4.  A freshly constructed node is not valid, whether or not it can
    ever be run; a [run] of it that succeeds leaves it valid, and
    [invalidate_deps] and [connect] after that leave it not valid.  On
    whatever node: a successful [run] leaves it valid, and
    [invalidate_deps] and [connect], whatever their arguments, leave it not
    valid. *)
Theorem validity_flag_lifecycle
    (srcexpr : Expr) (destexpr : option Expr) (translate : bool) (w w' : World)
    (pc : t) :
  __init__ srcexpr destexpr translate w = (w', inr pc) ->
  is_valid pc = false /\
  (forall g pc', run g pc = (pc', inr tt) ->
     is_valid pc' = true /\
     (forall varnames force,
         exists p, invalidate_deps varnames force pc' = (p, inr tt)
                   /\ is_valid p = false) /\
     (forall src dest,
         exists p, connect src dest pc' = (p, inr tt) /\ is_valid p = false)) /\
  (forall (p p' : t) g, run g p = (p', inr tt) -> is_valid p' = true) /\
  (forall (p : t) varnames force,
      is_valid (invalidate_deps varnames force p).1 = false) /\
  (forall (p : t) src dest, is_valid (connect src dest p).1 = false).
Proof.
  intros Hinit.
  apply __init___inv in Hinit as [_ Hinit].
  apply init_inv in Hinit as (slots & _ & _ & _ & Hvalid & _).
  split; [exact Hvalid|]. split; [|split; [|split]].
  - intros g pc' Hrun. split; [exact (run_valid _ _ _ Hrun)|].
    split; intros; eexists; split; reflexivity.
  - intros p p' g Hrun. exact (run_valid _ _ _ Hrun).
  - reflexivity.
  - reflexivity.
Qed.

(** C5.  The hidden view of a constructed node: with an output target it
    lists, once each, the pairs (source reference, first output target)
    over the references of the source expression (the placeholder
    reference [""] is not a source); without an output target it is empty;
    with one source reference and one output target it is the single
    direct edge.  The hidden view of a ParamPseudoComponent is always
    empty. *)
Theorem hidden_connections
    (srcexpr : Expr) (destexpr : option Expr) (translate : bool)
    (w w' : World) (pc : t) :
  __init__ srcexpr destexpr translate w = (w', inr pc) ->
  (forall dest0 dests, _outdests pc = dest0 :: dests ->
     NoDup (list_connections true pc) /\
     forall s d, (s, d) ∈ list_connections true pc
                 <-> s ∈ refs srcexpr /\ s <> "" /\ d = dest0) /\
  (_outdests pc = [] -> list_connections true pc = []) /\
  (forall s d, refs srcexpr = [s] -> s <> "" -> _outdests pc = [d] ->
     list_connections true pc = [(s, d)]) /\
  (forall p : ParamPseudoComponent.t,
     ParamPseudoComponent.list_connections true p = []).
Proof.
  intros Hinit. apply __init___inv in Hinit as [_ Hinit].
  apply init_inv in Hinit as (slots & _ & _ & Hinmap & _).
  unfold list_connections. rewrite Hinmap. split; [|split; [|split]].
  - intros dest0 dests ->.
    destruct (hidden_pairs_spec (init_inmap (refs srcexpr)) dest0) as [Hnd Hspec].
    split; [exact Hnd|]. intros s d. rewrite Hspec, init_inmap_dom. reflexivity.
  - intros ->. reflexivity.
  - intros s d -> Hne ->. unfold init_inmap. cbn.
    rewrite insert_empty, map_to_list_singleton. cbn.
    destruct (decide (s <> "")); [reflexivity | contradiction].
  - reflexivity.
Qed.

(** C6, as amended.  The equation text of a constructed node is
    [out = src], where [out] is the destination text, or [out0] when there
    is none, and [src] is the text of the node's source expression, mapped
    back through the inverse of the reference map when the references
    were translated and taken as it is otherwise.  That source text is the
    source in local names when the destination declares no unit, and the
    printed unit-rewritten tree when it declares one.  On distinct
    references the inverse map sends [in<i>] back to the i-th reference. *)
Theorem equation_text
    (srcexpr : Expr) (destexpr : option Expr) (translate : bool)
    (w w' : World) (pc : t) :
  __init__ srcexpr destexpr translate w = (w', inr pc) ->
  let dest := default DummyExpr destexpr in
  _eqn pc
  = (if decide (text dest <> "") then text dest else "out0") +:+ " = "
    +:+ (if translate
         then transform_expression (_srcexpr pc) (_invert_dict (_inmap pc))
         else _srcexpr pc) /\
  (declared_unit pc = None -> _srcexpr pc = local_source srcexpr translate) /\
  (forall out_units, declared_unit pc = Some out_units ->
     exists src_units tree scale offset,
       _srcunits pc = Some src_units /\
       ast_parse (local_source srcexpr translate) = inr tree /\
       library_conversion src_units out_units = inr (scale, offset) /\
       _srcexpr pc = print_node (scaler_adder_xform tree scale offset)) /\
  (NoDup (refs srcexpr) ->
   forall i r, refs srcexpr !! i = Some r ->
     _inmap pc !! r = Some (in_name i) /\
     _invert_dict (_inmap pc) !! in_name i = Some r).
Proof.
  intros Hinit dest. apply __init___inv in Hinit as [_ Hinit].
  apply init_inv in Hinit
    as (slots & _ & _ & Hinmap & _ & _ & _ & _ & _ & _ & Heqn & Hunits).
  split; [exact Heqn|]. split; [|split].
  - intros Hnone. rewrite Hnone in Hunits. tauto.
  - intros ou Hou. rewrite Hou in Hunits. destruct Hunits as (su & Hpass & Hsu).
    apply unit_pass_inv in Hpass as (tree & s & o & _ & Hparse & Hconv & Hsrc).
    exists su, tree, s, o. auto.
  - intros Hnd i r Hi. rewrite Hinmap. split.
    + by apply init_inmap_lookup.
    + by apply _invert_dict_init_inmap.
Qed.

(** C7.  The source text of a ParamPseudoComponent is one of four forms:
    [in0] at scaler 1 and adder 0, [in0+adder] at scaler 1, [in0*scaler]
    at adder 0, and [(in0+adder)*scaler] otherwise, the numbers printed by
    [%.15g].  With scaler 2 and adder 1 the constructed node has the source
    text [(in0+1)*2]; after any further targets are added, [in0] is set
    to 3 and the node is run, [out0] holds 8 and every bound target has
    the edge from [out0].  The evaluator is assumed to read the two texts
    as their single references and trees, and the graph to feed nothing
    to a node without input connections. *)
Theorem param_source_forms_and_scenario
    (w : World) (g : Graph) (targets : list string) :
  text_refs "(in0+1)*2" = ["in0"] ->
  text_refs "x.value" = ["x.value"] ->
  transform_expression "x.value" {[ "x.value" := "out0" ]} = "out0" ->
  (forall d, evaluator_agrees "(in0+1)*2" scenario_tree d) ->
  update_inputs g ("_pseudo_" +:+ fmt_d (_count w)) = inr [] ->
  (forall scaler adder,
     ParamPseudoComponent.source_text scaler adder
     = if decide (scaler = 1%Qc)
       then if decide (adder = 0%Qc) then "in0" else "in0+" +:+ fmt_g15 adder
       else if decide (adder = 0%Qc) then "in0*" +:+ fmt_g15 scaler
            else "(in0+" +:+ fmt_g15 adder +:+ ")*" +:+ fmt_g15 scaler) /\
  exists w' p p1 p2,
    ParamPseudoComponent.__init__ "x.value" (Some (float 2)) (Some (float 1)) w
    = (w', inr p) /\
    _srcexpr (ParamPseudoComponent.base p) = "(in0+1)*2" /\
    ParamPseudoComponent.call (set "in0" (PyFloat (float 3)) None)
      (foldl (fun p t => ParamPseudoComponent.add_target t p) p targets)
    = (p1, inr tt) /\
    ParamPseudoComponent.call (run g) p1 = (p2, inr tt) /\
    ParamPseudoComponent.call (get "out0" None) p2
    = (p2, inr (PyFloat (float 8))) /\
    forall t, t ∈ "x.value" :: targets ->
      (name (ParamPseudoComponent.base p2) +:+ ".out0", t)
      ∈ ParamPseudoComponent.list_connections false p2.
Proof.
  intros Hsrc Hdst Hxf Heval Hfeed. split; [exact source_text_forms|].
  assert (ParamPseudoComponent.source_text (float 2) (float 1) = "(in0+1)*2")
    as Htext by by_compute.
  set (nm := "_pseudo_" +:+ fmt_d (_count w)) in *.
  set (b := mk nm {[ "in0" := "in0" ]} {[ "in0" := ∅; "out0" := ∅ ]} false ["in0"]
               ["x.value"] None "(in0+1)*2" "out0" "x.value = (in0+1)*2" None None
               {[ "in0" := PyNone; "out0" := PyNone ]}).
  assert (ParamPseudoComponent.__init__ "x.value" (Some (float 2)) (Some (float 1)) w
          = (mkWorld (S (_count w)) (parent w),
             inr (ParamPseudoComponent.mk b (float 2) (float 1)))) as Hinit.
  { unfold ParamPseudoComponent.__init__, __init__, init.
    cbn [default _get_new_name]. unfold id.
    rewrite Htext. unfold ParamPseudoComponent.ConnectedExprEvaluator.
    rewrite Hsrc, Hdst. cbn [fmap list_fmap text refs].
    unfold local_source. cbn [text refs].
    rewrite Hxf.
    replace (attach_metadata _ _) with
      (inr ({[ "in0" := PyNone; "out0" := PyNone ]},
            {[ "in0" := ∅; "out0" := ∅ ]})
       : result (gmap string value * gmap string metadata))
      by by_compute.
    cbn. reflexivity. }
  eexists _, _, _, _. split; [exact Hinit|]. split; [reflexivity|].
  unfold ParamPseudoComponent.call. rewrite add_targets_base.
  cbn [ParamPseudoComponent.base].
  rewrite set_spec. cbn [ParamPseudoComponent.scaler ParamPseudoComponent.adder].
  split; [reflexivity|].
  cbn [ParamPseudoComponent.base ParamPseudoComponent.scaler
       ParamPseudoComponent.adder].
  rewrite run_unfold.
  unfold refresh_inputs, mbind, method_bind, gets, lift.
  cbn [_valid with_outdests setattr name b].
  rewrite Hfeed. cbn [for_each mret method_ret].
  cbn [_srcexpr attrs setattr with_outdests b].
  rewrite (Heval _).
  replace (eval_node _ scenario_tree) with (inr (PyFloat (float 8)) : result value).
  2:{ cbn. rewrite lookup_insert_eq. cbn.
      assert (((float 3 + float 1) * float 2)%Qc = float 8) as ->
        by (apply Qc_is_canon; reflexivity).
      reflexivity. }
  cbn [in_destination_units mret method_ret _destexpr unwrap].
  split; [reflexivity|]. split.
  - unfold get, mbind, method_bind, gets. cbn. rewrite lookup_insert_eq.
    reflexivity.
  - intros t Ht. unfold ParamPseudoComponent.list_connections.
    cbn [ParamPseudoComponent.base _outdests name with_valid with_outdests
         setattr b].
    change (["x.value"] ++ targets) with ("x.value" :: targets).
    apply list_elem_of_fmap. exists t. split; [reflexivity|]. exact Ht.
Qed.

(** C8.  Let the references of the source expression be those the evaluator
    enumerates for its text.  After [linearize] on a constructed node
    (whatever inputs were stored in between), [provideJ] returns the input
    slot names, [out0] and a one-row jacobian.  The references are listed
    once each in the order in which they first appear in the text, read
    from left to right, and they are all the references of a text that
    parses; the i-th name is [in<i>], the slot that the constructor gave to
    the i-th reference, and the i-th entry of the row is the gradient with
    respect to that slot. *)
Theorem provideJ_order
    (srcexpr : Expr) (destexpr : option Expr) (translate : bool)
    (w w' : World) (pc pc' : t) (inputs : list (string * value)) :
  refs srcexpr = Demo.text_refs (text srcexpr) ->
  __init__ srcexpr destexpr translate w = (w', inr pc) ->
  linearize (store_all inputs pc) = (pc', inr tt) ->
  exists grad row,
    evaluate_gradient (_srcexpr pc) (attrs (store_all inputs pc)) = inr grad /\
    provideJ pc' = inr (init_inputs (refs srcexpr), ["out0"], [row]) /\
    length row = length (refs srcexpr) /\
    first_appearance_order (refs srcexpr) (occurrences (text srcexpr)) /\
    (forall t, Demo.ast_parse (text srcexpr) = inr t ->
       forall x, x ∈ occurrences (text srcexpr) -> x ∈ refs srcexpr) /\
    forall i r, refs srcexpr !! i = Some r ->
      init_inputs (refs srcexpr) !! i = Some (in_name i) /\
      _inmap pc !! r = Some (in_name i) /\
      exists x, row !! i = Some x /\ grad !! in_name i = Some x.
Proof.
  intros Hrefs Hinit Hlin. apply __init___inv in Hinit as [_ Hinit].
  apply init_inv in Hinit as (slots & _ & _ & Hinmap & _ & Hinputs & _).
  rewrite linearize_unfold, store_all_srcexpr, store_all_inputs in Hlin.
  destruct (evaluate_gradient _ _) as [e|grad]; [discriminate|].
  destruct (mapM _ _) as [e|row] eqn:Hrow; [discriminate|].
  injection Hlin as <-.
  rewrite Hinputs in Hrow. apply mapM_result_inv in Hrow as [Hlen Hrow].
  destruct (text_refs_order (text srcexpr)) as [Horder Hall].
  rewrite <- Hrefs in Horder, Hall.
  exists grad, row. split; [reflexivity|]. split; [|split; [|split; [|split]]].
  - unfold provideJ. cbn. by rewrite store_all_inputs, Hinputs.
  - by rewrite Hlen, init_inputs_length.
  - exact Horder.
  - exact Hall.
  - intros i r Hi. pose proof (init_inputs_lookup _ _ _ Hi) as Hn.
    split; [exact Hn|]. split.
    + rewrite Hinmap. apply init_inmap_lookup; [exact (proj1 Horder)|exact Hi].
    + destruct (Hrow _ _ Hn) as (y & Hy & Hg). exists y. split; [done|].
      unfold getitem in Hg. destruct (grad !! in_name i); [|discriminate].
      by injection Hg as ->.
Qed.

(** C9, as amended.  [calc_derivatives] with only second derivatives
    requested raises [RuntimeError] and leaves the node as it was.  With
    first derivatives requested it runs [linearize] first: alone, it is
    [linearize]; together with second derivatives, a failure of
    [linearize] is the failure of the call and the node is unchanged,
    and after a successful [linearize] the call raises [RuntimeError] on a
    node whose jacobian has been replaced and whose other fields, the
    validity flag among them, are unchanged. *)
Theorem calc_derivatives_contract (pc : t) :
  calc_derivatives false true pc
  = (pc, inl (Exception RuntimeError
                ("2nd derivatives not supported in pseudocomponent " +:+ name pc))) /\
  calc_derivatives false false pc = (pc, inr tt) /\
  calc_derivatives true false pc = linearize pc /\
  (forall e pc1, linearize pc = (pc1, inl e) ->
     pc1 = pc /\ calc_derivatives true true pc = (pc, inl e)) /\
  (forall pc1, linearize pc = (pc1, inr tt) ->
     calc_derivatives true true pc
     = (pc1, inl (Exception RuntimeError
                    ("2nd derivatives not supported in pseudocomponent "
                     +:+ name pc))) /\
     exists row, pc1 = with_J [row] pc /\ is_valid pc1 = is_valid pc).
Proof.
  unfold calc_derivatives, mbind, method_bind, gets, lift. cbn.
  split; [reflexivity|]. split; [reflexivity|]. split; [|split].
  - destruct (linearize pc) as [pc1 [e|[]]]; reflexivity.
  - intros e pc1 Hlin. rewrite Hlin. rewrite linearize_unfold in Hlin.
    destruct (evaluate_gradient _ _) as [e'|grad]; [by injection Hlin as <- <-|].
    destruct (mapM _ _) as [e'|row]; [by injection Hlin as <- <-|discriminate].
  - intros pc1 Hlin. rewrite Hlin. rewrite linearize_unfold in Hlin.
    destruct (evaluate_gradient _ _) as [e'|grad]; [discriminate|].
    destruct (mapM _ _) as [e'|row]; [discriminate|]. injection Hlin as <-.
    split; [reflexivity|]. exists row. split; reflexivity.
Qed.

End node.

(** C10.  [set] without an index stores a UnitsAttrWrapper as the plain
    number of its physical quantity, a PhysicalQuantity as its plain
    number and any other value unchanged; [get] without an index then
    returns what was stored, which carries no unit. *)
Theorem set_stores_plain_value (pc : t) (path : string) (v : value) :
  exists pc' stored,
    set path v None pc = (pc', inr tt) /\
    get path None pc' = (pc', inr stored) /\
    unit_tagged stored = false /\
    match v with
    | PyWrapper w => stored = PyFloat (pq_value (pq w))
    | PyPQ q => stored = PyFloat (pq_value q)
    | _ => stored = v
    end.
Proof.
  exists (setattr path (unwrap v) pc), (unwrap v).
  split; [apply set_spec|]. split.
  - unfold get, mbind, method_bind, gets. cbn. rewrite lookup_insert_eq.
    reflexivity.
  - destruct v; auto.
Qed.

(** ** The claims on concrete nodes *)



(** C2 on feet assigned to seconds. *)
Lemma incompatible_units_rejected_witness :
  exists msg,
    __init__ feet_src (Some seconds_dst) true demo_world
    = (mkWorld 1 demo_graph, inl (Exception TypeError msg)) /\
    contains msg "ft" /\ contains msg "s" /\ contains msg "a+b" /\ contains msg "t".
Proof.
  apply (incompatible_units_rejected feet_src seconds_dst true demo_world
           {[ "in0" := PyNone; "in1" := PyNone; "out0" := PyNone ]}
           {[ "in0" := {[ "units" := "ft" ]}; "in1" := {[ "units" := "ft" ]};
              "out0" := {[ "units" := "s" ]} ]}
           "s" "ft" (BinOp (Name "in0") Add (Name "in1")) "ft" "s"
           "Incompatible units");
    by_compute.
Defined.

(** C3 on the destination [p+q]. *)
Lemma multi_variable_destination_rejected_witness :
  exists w',
    __init__ feet_src (Some two_var_dst) true demo_world
    = (w', inl (Exception RuntimeError
                  "output of PseudoComponent must reference only one variable")) /\
    parent w' = parent demo_world /\
    graph_edges (parent w') = graph_edges (parent demo_world).
Proof.
  apply (multi_variable_destination_rejected feet_src two_var_dst true demo_world).
  cbn. lia.
Defined.

(** C4 on the inch node: fresh, run, then connected again. *)
Lemma validity_flag_lifecycle_witness :
  is_valid demo_node = false /\
  is_valid (run demo_graph demo_node).1 = true /\
  is_valid (connect "x" "y" (run demo_graph demo_node).1).1 = false.
Proof.
  assert (run demo_graph demo_node = ((run demo_graph demo_node).1, inr tt)) as Hrun
    by by_compute.
  destruct (validity_flag_lifecycle feet_src (Some inch_dst) true demo_world
              (mkWorld 1 demo_graph) demo_node demo_node_constructed)
    as (Hfresh & Hafter & _ & _ & Hconn).
  destruct (Hafter demo_graph _ Hrun) as (Hvalid & _).
  split; [exact Hfresh|]. split; [exact Hvalid|]. apply Hconn.
Defined.

(** C5 on [c = a]: the hidden view is the direct edge. *)
Lemma hidden_connections_witness :
  list_connections true one_node = [("a", "c")].
Proof.
  destruct (hidden_connections one_src (Some inch_dst) true demo_world
              (mkWorld 1 demo_graph) one_node one_node_constructed)
    as (_ & _ & Hone & _).
  apply Hone; [reflexivity | discriminate | reflexivity].
Defined.

(** C6 fails as stated: for [c = a + b] from feet to inches the equation
    text carries the conversion factor, so it is not the destination text,
    [" = "] and the source text. *)
Lemma equation_text_after_unit_rewrite :
  exists pc,
    (__init__ feet_src (Some inch_dst) true demo_world).2 = inr pc /\
    _eqn pc = "c = (a+b)*12" /\
    _eqn pc <> text inch_dst +:+ " = " +:+ text feet_src.
Proof.
  exists demo_node. rewrite demo_node_constructed. repeat split. discriminate.
Qed.

(** C6 as amended, on the same node. *)
Lemma equation_text_witness :
  _eqn demo_node
  = "c" +:+ " = " +:+ transform_expression (_srcexpr demo_node)
                         (_invert_dict (_inmap demo_node)) /\
  _invert_dict (_inmap demo_node) !! in_name 1 = Some "b".
Proof.
  destruct (equation_text feet_src (Some inch_dst) true demo_world
              (mkWorld 1 demo_graph) demo_node demo_node_constructed)
    as (Heqn & _ & _ & Hinv).
  split; [exact Heqn|].
  apply (Hinv ltac:(by_decide) 1%nat "b" ltac:(by_compute)).
Defined.

(** C7 with the concrete evaluator and one more target. *)
Lemma param_source_forms_and_scenario_witness :
  ParamPseudoComponent.source_text (float 2) (float 1) = "(in0+1)*2" /\
  exists w' p p1 p2,
    ParamPseudoComponent.__init__ "x.value" (Some (float 2)) (Some (float 1))
      (mkWorld 0 idle_graph) = (w', inr p) /\
    _srcexpr (ParamPseudoComponent.base p) = "(in0+1)*2" /\
    ParamPseudoComponent.call (set "in0" (PyFloat (float 3)) None)
      (foldl (fun p t => ParamPseudoComponent.add_target t p) p ["y.value"])
    = (p1, inr tt) /\
    ParamPseudoComponent.call (run idle_graph) p1 = (p2, inr tt) /\
    ParamPseudoComponent.call (get "out0" None) p2
    = (p2, inr (PyFloat (float 8))) /\
    forall t, t ∈ ["x.value"; "y.value"] ->
      (name (ParamPseudoComponent.base p2) +:+ ".out0", t)
      ∈ ParamPseudoComponent.list_connections false p2.
Proof.
  destruct (param_source_forms_and_scenario (mkWorld 0 idle_graph) idle_graph
              ["y.value"]) as [Hforms Hrun].
  - by_compute.
  - by_compute.
  - by_compute.
  - intros d. unfold evaluator_agrees. by_compute.
  - reflexivity.
  - split; [by_compute | exact Hrun].
Defined.

(** C8 on [y = b*a + b], whose first reference is [b]. *)
Lemma provideJ_order_witness :
  provideJ (linearize (store_all demo_feed swapped_node)).1
  = inr (["in0"; "in1"], ["out0"], [[float 3; float 1]]) /\
  occurrences (text swapped_src) = ["b"; "a"; "b"] /\
  first_appearance_order (refs swapped_src) (occurrences (text swapped_src)) /\
  _inmap swapped_node !! "b" = Some "in0" /\
  _inmap swapped_node !! "a" = Some "in1".
Proof.
  assert (linearize (store_all demo_feed swapped_node)
          = ((linearize (store_all demo_feed swapped_node)).1, inr tt)) as Hlin
    by by_compute.
  destruct (provideJ_order swapped_src (Some plain_dst) true demo_world
              (mkWorld 1 demo_graph) swapped_node
              (linearize (store_all demo_feed swapped_node)).1 demo_feed
              eq_refl swapped_node_constructed Hlin)
    as (grad & row & Hgrad & HJ & Hlen & Horder & _ & Hrows).
  destruct (Hrows 0%nat "b" ltac:(by_compute)) as (_ & Hb & _).
  destruct (Hrows 1%nat "a" ltac:(by_compute)) as (_ & Ha & _).
  split; [by_decide|]. split; [by_compute|]. split; [exact Horder|].
  split; [exact Hb | exact Ha].
Defined.

(** C9 fails as stated: a call that asks for first and second derivatives
    fails after [linearize] has replaced the jacobian. *)
Lemma second_order_failure_after_linearize :
  exists pc' e,
    calc_derivatives true true (store_all demo_feed demo_node) = (pc', inl e) /\
    exn_cls e = RuntimeError /\
    J (store_all demo_feed demo_node) = None /\
    J pc' = Some [[float 12; float 12]] /\
    pc' <> store_all demo_feed demo_node.
Proof.
  eexists _, _. split; [by_compute|]. split; [reflexivity|]. split; [reflexivity|].
  split.
  - by_decide.
  - intros E. apply (f_equal J) in E. discriminate.
Qed.

(** C9 as amended, on a node with inputs and on one without. *)
Lemma calc_derivatives_contract_witness :
  calc_derivatives true true (store_all demo_feed demo_node)
  = ((linearize (store_all demo_feed demo_node)).1,
     inl (Exception RuntimeError
            "2nd derivatives not supported in pseudocomponent _pseudo_0")) /\
  calc_derivatives true true demo_node
  = (demo_node, inl (Exception TypeError "unsupported operand")).
Proof.
  split.
  - destruct (calc_derivatives_contract (store_all demo_feed demo_node))
      as (_ & _ & _ & _ & Hok).
    destruct (Hok (linearize (store_all demo_feed demo_node)).1) as [Hcall _].
    + by_compute.
    + exact Hcall.
  - destruct (calc_derivatives_contract demo_node) as (_ & _ & _ & Hfail & _).
    destruct (Hfail (Exception TypeError "unsupported operand") demo_node)
      as [_ Hcall].
    + by_compute.
    + exact Hcall.
Defined.

(** * Further properties *)

(** ** Names and the inverse dictionary *)

Lemma pseudo_name_inj i j :
  "_pseudo_" +:+ fmt_d i = "_pseudo_" +:+ fmt_d j -> i = j.
Proof.
  unfold fmt_d. intros E. apply (inj (String.app "_pseudo_")) in E.
  by apply (inj pretty) in E.
Qed.

Lemma fresh_names_spec n w :
  fresh_names n w
  = (mkWorld (_count w + n) (parent w),
     (fun i => "_pseudo_" +:+ fmt_d (_count w + i)) <$> seq 0 n).
Proof.
  revert w. induction n as [|n IH]; intros w.
  - cbn. rewrite Nat.add_0_r. by destruct w.
  - cbn [fresh_names]. unfold _get_new_name. rewrite IH. cbn [_count parent].
    f_equal; [f_equal; lia|]. cbn [seq fmap list_fmap]. rewrite Nat.add_0_r. f_equal.
    rewrite <- seq_shift, <- list_fmap_compose. apply list_fmap_ext.
    intros _ i _. cbn. do 2 f_equal. lia.
Qed.

(** X1.  [n] calls of [_get_new_name] in a row return [n] pairwise distinct
    names, the i-th being ["_pseudo_"] followed by the counter's start value
    plus [i] in decimal; the counter ends [n] higher and nothing else of the
    world changes. *)
Theorem fresh_names_distinct (n : nat) (w : World) :
  NoDup (fresh_names n w).2 /\
  length (fresh_names n w).2 = n /\
  _count (fresh_names n w).1 = (_count w + n)%nat /\
  parent (fresh_names n w).1 = parent w /\
  forall i nm, (fresh_names n w).2 !! i = Some nm ->
               nm = "_pseudo_" +:+ fmt_d (_count w + i).
Proof.
  rewrite fresh_names_spec. cbn [fst snd _count parent].
  split; [|split; [|split; [|split]]]; try reflexivity.
  - apply NoDup_fmap_2; [|apply NoDup_seq].
    intros i j E. apply pseudo_name_inj in E. lia.
  - by rewrite length_fmap, length_seq.
  - intros i nm Hi. rewrite list_lookup_fmap in Hi.
    destruct (seq 0 n !! i) as [k|] eqn:Hk; [|discriminate].
    apply lookup_seq in Hk as [-> _]. cbn in Hi. by injection Hi as <-.
Qed.

(** _get_varname *)
Lemma str_find_take c s i :
  str_find c s = Some i ->
  exists rest, s = str_take i s +:+ String c rest /\ str_find c (str_take i s) = None.
Proof.
  revert i. induction s as [|a s IH]; intros i; [discriminate|].
  cbn. destruct (decide (a = c)) as [->|Hne].
  - intros [= <-]. exists s. cbn. auto.
  - destruct (str_find c s) as [j|] eqn:Hj; [|discriminate].
    cbn. intros [= <-]. destruct (IH j eq_refl) as (rest & Hs & Hnone).
    exists rest. cbn. destruct (decide (a = c)); [done|].
    rewrite Hnone. split; [|done].
    change (String a s = String a (str_take j s +:+ String c rest)). by rewrite <- Hs.
Qed.

(** X2.  [_get_varname] returns a text without ['['], is idempotent, is the
    identity on a name without ['['], and otherwise returns the part of the
    name before its first ['[']: the name is the result, ['['] and a rest. *)
Theorem _get_varname_spec (name : string) :
  str_find "["%char (_get_varname name) = None /\
  _get_varname (_get_varname name) = _get_varname name /\
  (str_find "["%char name = None -> _get_varname name = name) /\
  (forall i, str_find "["%char name = Some i ->
     exists rest, name = _get_varname name +:+ String "["%char rest).
Proof.
  assert (str_find "["%char (_get_varname name) = None) as Hnone.
  { unfold _get_varname. destruct (str_find "[" name) as [i|] eqn:Hf; [|exact Hf].
    by destruct (str_find_take _ _ _ Hf) as (rest & _ & Hnone). }
  split; [exact Hnone|]. split; [|split].
  - unfold _get_varname at 1. by rewrite Hnone.
  - intros Hf. unfold _get_varname. by rewrite Hf.
  - intros i Hf. unfold _get_varname. rewrite Hf.
    destruct (str_find_take _ _ _ Hf) as (rest & Hs & _). eauto.
Qed.

(** _invert_dict *)
Lemma foldl_invert_sound (l : list (string * string)) (acc : gmap string string) v k :
  foldl (fun out kv => <[kv.2 := kv.1]> out) acc l !! v = Some k ->
  (k, v) ∈ l \/ acc !! v = Some k.
Proof.
  revert acc. induction l as [|[k' v'] l IH]; intros acc; cbn [foldl]; [auto|].
  intros Hl. apply IH in Hl as [Hin|Hacc].
  - left. by right.
  - cbn in Hacc. destruct (decide (v' = v)) as [->|Hne].
    + rewrite lookup_insert_eq in Hacc. injection Hacc as ->. left. by left.
    + rewrite lookup_insert_ne in Hacc by done. auto.
Qed.

Lemma foldl_invert_complete (l : list (string * string)) (acc : gmap string string) v :
  v ∈ l.*2 \/ is_Some (acc !! v) ->
  is_Some (foldl (fun out kv => <[kv.2 := kv.1]> out) acc l !! v).
Proof.
  revert acc. induction l as [|[k' v'] l IH]; intros acc; cbn [foldl].
  - intros [Hin|Hacc]; [inversion Hin | done].
  - intros [Hin|Hacc]; apply IH.
    + cbn in Hin. apply elem_of_cons in Hin as [->|Hin]; [|by left].
      right. cbn. rewrite lookup_insert_eq. eauto.
    + right. cbn. destruct (decide (v' = v)) as [->|Hne].
      * rewrite lookup_insert_eq. eauto.
      * by rewrite lookup_insert_ne.
Qed.

(** X3.  Every entry [v -> k] of [_invert_dict dct] comes from an entry
    [k -> v] of [dct], and every value of [dct] is a key of the result.  When
    no two keys of [dct] hold the same value the result is the exact
    inverse, and inverting twice gives [dct] back. *)
Theorem _invert_dict_round_trip (dct : gmap string string) :
  (forall v k, _invert_dict dct !! v = Some k -> dct !! k = Some v) /\
  (forall k v, dct !! k = Some v -> is_Some (_invert_dict dct !! v)) /\
  (injective_dict dct ->
     (forall k v, dct !! k = Some v <-> _invert_dict dct !! v = Some k) /\
     _invert_dict (_invert_dict dct) = dct).
Proof.
  assert (forall v k, _invert_dict dct !! v = Some k -> dct !! k = Some v) as Hsound.
  { intros v k Hl. apply foldl_invert_sound in Hl as [Hin|Hacc].
    - by apply elem_of_map_to_list in Hin.
    - by rewrite lookup_empty in Hacc. }
  assert (forall k v, dct !! k = Some v -> is_Some (_invert_dict dct !! v)) as Hcomplete.
  { intros k v Hk. apply foldl_invert_complete. left.
    apply list_elem_of_fmap. exists (k, v). split; [done|]. by apply elem_of_map_to_list. }
  split; [exact Hsound|]. split; [exact Hcomplete|].
  intros Hinj.
  assert (forall k v, dct !! k = Some v <-> _invert_dict dct !! v = Some k) as Hiff.
  { intros k v. split; [|apply Hsound].
    intros Hk. destruct (Hcomplete _ _ Hk) as [k' Hk'].
    rewrite Hk'. f_equal. apply Hsound in Hk' as Hk2. by eapply Hinj. }
  split; [exact Hiff|].
  apply map_eq. intros k.
  destruct (dct !! k) as [v|] eqn:Hk.
  - apply Hiff in Hk as Hv.
    assert (injective_dict (_invert_dict dct)) as Hinj'.
    { intros v1 v2 x H1 H2. apply Hsound in H1, H2. congruence. }
    destruct (foldl_invert_complete (map_to_list (_invert_dict dct)) ∅ k) as [v' Hv'].
    { left. apply list_elem_of_fmap. exists (v, k). split; [done|].
      by apply elem_of_map_to_list. }
    change (_invert_dict (_invert_dict dct) !! k = Some v).
    change (_invert_dict (_invert_dict dct) !! k = Some v') in Hv'. rewrite Hv'. f_equal.
    apply foldl_invert_sound in Hv' as [Hin|Hacc]; [|by rewrite lookup_empty in Hacc].
    apply elem_of_map_to_list in Hin. apply Hsound in Hin. congruence.
  - destruct (_invert_dict (_invert_dict dct) !! k) as [v|] eqn:Hv; [|done].
    apply foldl_invert_sound in Hv as [Hin|Hacc]; [|by rewrite lookup_empty in Hacc].
    apply elem_of_map_to_list in Hin. apply Hsound in Hin. congruence.
Qed.

Section ctor.
Context `{ExprLib} `{UnitLib}.

Lemma __init___world src dest tr w :
  (__init__ src dest tr w).1 = mkWorld (S (_count w)) (parent w).
Proof. reflexivity. Qed.

(** X5.  A successful construction names its node ["_pseudo_"] followed by
    the counter value it found, advances the counter by one and leaves the
    rest of the world alone; two nodes, the second constructed at or after
    the counter value the first construction left, have different names. *)
Theorem constructed_names_differ
    (src1 src2 : Expr) (dest1 dest2 : option Expr) (tr1 tr2 : bool)
    (w1 w2 w1' w2' : World) (pc1 pc2 : t) :
  __init__ src1 dest1 tr1 w1 = (w1', inr pc1) ->
  __init__ src2 dest2 tr2 w2 = (w2', inr pc2) ->
  (_count w1' <= _count w2)%nat ->
  name pc1 = "_pseudo_" +:+ fmt_d (_count w1) /\
  _count w1' = S (_count w1) /\
  parent w1' = parent w1 /\
  name pc1 <> name pc2.
Proof.
  intros H1 H2 Hle.
  apply __init___inv in H1 as [-> H1]. apply __init___inv in H2 as [-> H2].
  apply init_inv in H1 as (_ & _ & Hn1 & _). apply init_inv in H2 as (_ & _ & Hn2 & _).
  cbn in Hle. repeat split; [done|].
  rewrite Hn1, Hn2. intros E. apply pseudo_name_inj in E. lia.
Qed.
End ctor.

(** ** Connection views and slots *)

Lemma init_attrs_snoc rs r :
  init_attrs (rs ++ [r]) = <[in_name (length rs) := PyNone]> (init_attrs rs).
Proof. unfold init_attrs. by rewrite enumerate_snoc, foldl_app. Qed.

Lemma init_attrs_lookup rs n :
  init_attrs rs !! n = if decide (n ∈ init_inputs rs) then Some PyNone else None.
Proof.
  induction rs as [|r rs IH] using rev_ind.
  - unfold init_attrs. cbn. rewrite lookup_empty. by rewrite decide_False by inversion 1.
  - rewrite init_attrs_snoc, init_inputs_snoc.
    destruct (decide (in_name (length rs) = n)) as [<-|Hne].
    + rewrite lookup_insert_eq. rewrite decide_True; [done|].
      apply elem_of_app. right. by apply list_elem_of_singleton.
    + rewrite lookup_insert_ne by done. rewrite IH.
      destruct (decide (n ∈ init_inputs rs)) as [Hin|Hnin].
      * rewrite decide_True; [done|]. apply elem_of_app. by left.
      * rewrite decide_False; [done|]. rewrite elem_of_app, list_elem_of_singleton.
        intros [|]; congruence.
Qed.

Lemma in_name_not_out0 i : in_name i <> "out0".
Proof. unfold in_name. discriminate. Qed.

Lemma map_to_list_init_inmap rs :
  NoDup rs ->
  map_to_list (init_inmap rs) ≡ₚ imap (fun i r => (r, in_name i)) rs.
Proof.
  induction rs as [|r rs IH] using rev_ind; intros Hnd.
  - unfold init_inmap. cbn. by rewrite map_to_list_empty.
  - apply NoDup_app in Hnd as (Hnd & Hnotin & _).
    rewrite init_inmap_snoc, imap_app. cbn. rewrite Nat.add_0_r.
    rewrite map_to_list_insert.
    + rewrite IH by done. apply Permutation_cons_append.
    + apply eq_None_not_Some. rewrite init_inmap_dom. intros Hin.
      eapply Hnotin; [done|]. by apply list_elem_of_singleton.
Qed.

Lemma imap_fst_id {A} (l : list A) : imap (fun _ r => r) l = l.
Proof.
  induction l as [|x l IH] using rev_ind; [done|].
  rewrite imap_app. cbn. by rewrite IH.
Qed.

Section views.
Context `{ExprLib} `{UnitLib}.

(** X12.  For a node constructed from pairwise different references, the
    visible view is the input edges [(ref_i, name.in<i>)], in dictionary
    order, followed by one edge [(name.out0, dest)] per output target, of
    which the constructor sets at most one; the hidden view pairs every
    non-empty reference with that target. *)
Theorem connection_views
    (srcexpr : Expr) (destexpr : option Expr) (translate : bool)
    (w w' : World) (pc : t) :
  __init__ srcexpr destexpr translate w = (w', inr pc) ->
  NoDup (refs srcexpr) ->
  exists ins,
    list_connections false pc
    = ins ++ ((fun d => (name pc +:+ ".out0", d)) <$> _outdests pc) /\
    ins ≡ₚ imap (fun i r => (r, name pc +:+ "." +:+ in_name i)) (refs srcexpr) /\
    (length (_outdests pc) <= 1)%nat /\
    list_connections true pc
    ≡ₚ d ← _outdests pc;
       (fun r => (r, d)) <$> filter (fun r => r <> "") (refs srcexpr).
Proof.
  intros Hinit Hnd. apply __init___inv in Hinit as [_ Hinit].
  apply init_inv in Hinit as (slots & _ & _ & Hinmap & _ & _ & Hout & _).
  exists ((fun sd => (sd.1, name pc +:+ "." +:+ sd.2)) <$> map_to_list (_inmap pc)).
  split; [|split; [|split]].
  - unfold list_connections. destruct (_outdests pc); [|done]. cbn. by rewrite app_nil_r.
  - rewrite Hinmap, (map_to_list_init_inmap _ Hnd), fmap_imap. reflexivity.
  - rewrite Hout. destruct (decide _); cbn; lia.
  - unfold list_connections. rewrite Hout, Hinmap.
    destruct (decide (text (default DummyExpr destexpr) <> "")); [|done].
    cbn. rewrite app_nil_r. apply fmap_Permutation.
    rewrite (map_to_list_init_inmap _ Hnd), fmap_imap. cbn.
    unfold compose. cbn. by rewrite imap_fst_id.
Qed.
End views.

Lemma filter_all {A} (P : A -> Prop) `{forall x, Decision (P x)} (l : list A) :
  (forall x, x ∈ l -> P x) -> filter P l = l.
Proof.
  induction l as [|a l IH]; intros Hall; [done|].
  rewrite filter_cons, decide_True by (apply Hall; by left).
  f_equal. apply IH. intros x Hx. apply Hall. by right.
Qed.

Lemma filter_none {A} (P : A -> Prop) `{forall x, Decision (P x)} (l : list A) :
  (forall x, x ∈ l -> ~ P x) -> filter P l = [].
Proof.
  induction l as [|a l IH]; intros Hall; [done|].
  rewrite filter_cons, decide_False by (apply Hall; by left).
  apply IH. intros x Hx. apply Hall. by right.
Qed.

Lemma foldl__connect l g :
  foldl (fun g sd => _connect sd.1 sd.2 g) g l
  = mkGraph (graph_pathname g) (graph_edges g ++ l) (update_inputs g).
Proof.
  revert g. induction l as [|[s d] l IH]; intros g; cbn [foldl].
  - rewrite app_nil_r. by destruct g.
  - rewrite IH. cbn. by rewrite <- app_assoc.
Qed.

Lemma foldl_disconnect l g :
  foldl (fun g sd => disconnect sd.1 sd.2 g) g l
  = mkGraph (graph_pathname g) (filter (fun e => e ∉ l) (graph_edges g))
            (update_inputs g).
Proof.
  revert g. induction l as [|[s d] l IH]; intros g; cbn [foldl].
  - destruct g as [p es u]. cbn. f_equal. symmetry. apply filter_all.
    intros e _. apply not_elem_of_nil.
  - rewrite IH. cbn. f_equal. rewrite list_filter_filter. apply list_filter_iff.
    intros e. rewrite not_elem_of_cons. tauto.
Qed.

Section graph.
Context `{ExprLib} `{UnitLib}.

(** X13.  [make_connections] hands the visible connections, in their order,
    to the graph's [_connect], and [remove_connections] hands the same pairs
    to [disconnect]; on a graph that held none of them, making and then
    removing gives the edges back.  The graph's path name is untouched. *)
Theorem make_then_remove_connections (pc : t) (g : Graph) :
  graph_edges (make_connections pc g)
  = graph_edges g ++ list_connections false pc /\
  graph_edges (remove_connections pc g)
  = filter (fun e => e ∉ list_connections false pc) (graph_edges g) /\
  ((forall e, e ∈ graph_edges g -> e ∉ list_connections false pc) ->
   graph_edges (remove_connections pc (make_connections pc g)) = graph_edges g) /\
  graph_pathname (remove_connections pc (make_connections pc g)) = graph_pathname g.
Proof.
  unfold make_connections, remove_connections.
  rewrite !foldl__connect, !foldl_disconnect. cbn.
  split; [done|]. split; [done|]. split; [|done].
  intros Hdisj. rewrite filter_app.
  rewrite (filter_all _ (graph_edges g)) by (intros; by apply Hdisj).
  rewrite (filter_none _ (list_connections false pc)); [by rewrite app_nil_r|].
  intros e He. tauto.
Qed.
End graph.

Section slots.
Context `{ExprLib} `{UnitLib}.

(** X14.  On a constructed node, [get] of every input slot and of [out0]
    returns [None], as does [get_wrapped_attr] of [out0], and neither
    changes the node. *)
Theorem fresh_slots_hold_None
    (srcexpr : Expr) (destexpr : option Expr) (translate : bool)
    (w w' : World) (pc : t) :
  __init__ srcexpr destexpr translate w = (w', inr pc) ->
  (forall i r, refs srcexpr !! i = Some r ->
     get (in_name i) None pc = (pc, inr PyNone)) /\
  get "out0" None pc = (pc, inr PyNone) /\
  get_wrapped_attr "out0" None pc = (pc, inr PyNone).
Proof.
  intros Hinit. apply __init___inv in Hinit as [_ Hinit].
  apply init_inv in Hinit as (slots & Hattach & _ & _ & _ & Hinputs & _ & _ & _ & Hattrs & _).
  assert (slots = <["out0" := PyNone]> (init_attrs (refs srcexpr))) as ->.
  { unfold attach_metadata in Hattach.
    destruct (refs (default DummyExpr destexpr)) as [|r0 [|r1 rs]]; cbn in Hattach;
      try discriminate;
      (destruct (remap_meta _ _) as [e|nm]; cbn in Hattach; [discriminate|]);
      try discriminate.
    destruct (getitem _ _); cbn in Hattach; [discriminate|]. by injection Hattach as <- _. }
  unfold get, mbind, method_bind, gets. cbn. rewrite Hattrs.
  split; [|split].
  - intros i r Hi. rewrite lookup_insert_ne by (apply not_eq_sym, in_name_not_out0).
    rewrite init_attrs_lookup, decide_True; [done|].
    eapply list_elem_of_lookup_2, init_inputs_lookup, Hi.
  - by rewrite lookup_insert_eq.
  - unfold get_wrapped_attr, get, mbind, method_bind, gets. cbn.
    by rewrite Hattrs, lookup_insert_eq.
Qed.
End slots.

(** X15.  For slot names: [set] changes neither the validity flag nor the
    jacobian, nor what [get] returns for another slot.  With an index, [set]
    raises [ValueError], [get] and [get_wrapped_attr] raise [RuntimeError],
    and the node is unchanged; [get] and [get_wrapped_attr] never change
    the node. *)
Theorem accessors_frame
    (pc : t) (path other : string) (v : value) (index : option value) :
  slot_name path -> slot_name other ->
  is_valid (set path v index pc).1 = is_valid pc /\
  J (set path v index pc).1 = J pc /\
  (other <> path ->
   (get other None (set path v index pc).1).2 = (get other None pc).2) /\
  (forall ix, index = Some ix ->
     set path v index pc
     = (pc, inl (Exception ValueError "index not supported in PseudoComponent.set")) /\
     get other index pc
     = (pc, inl (Exception RuntimeError "index not supported in PseudoComponent.get")) /\
     get_wrapped_attr other index pc
     = (pc, inl (Exception RuntimeError
                   "pseudocomponent attr accessed using an index"))) /\
  (get other index pc).1 = pc /\
  (get_wrapped_attr other index pc).1 = pc.
Proof.
  intros _ _. destruct index as [ix|].
  - cbn. repeat split; try done; by intros ? [= <-].
  - rewrite set_spec. cbn. split; [done|]. split; [done|].
    split; [|split; [done|]].
    + intros Hne. unfold get, mbind, method_bind, gets. cbn.
      rewrite lookup_insert_ne by done. by destruct (attrs pc !! other).
    + unfold get_wrapped_attr, get, mbind, method_bind, gets. cbn.
      by destruct (attrs pc !! other).
Qed.

(** ** What the methods leave alone *)

Lemma updated_trans p q r : updated p q -> updated q r -> updated p r.
Proof. intros Hpq Hqr. induction Hqr; try constructor; auto. Qed.

Lemma updated_store_all_from l p q : updated p q -> updated p (store_all l q).
Proof.
  unfold store_all. revert q.
  induction l as [|[k v] l IH]; intros q Hq; [exact Hq|].
  cbn [foldl]. apply IH. by constructor.
Qed.

Lemma updated_store_all l p : updated p (store_all l p).
Proof. apply updated_store_all_from. constructor. Qed.

Lemma unwrap_plain v : unit_tagged (unwrap v) = false.
Proof. by destruct v. Qed.

Lemma updated_same_structure p q : updated p q -> same_structure q p.
Proof. induction 1; [by repeat split|..]; destruct q; exact IHupdated. Qed.

Lemma updated_plain_slots p q : updated p q -> plain_slots p -> plain_slots q.
Proof.
  induction 1; intros Hp; auto; try (destruct q; exact (IHupdated Hp)).
  intros k' v'. destruct q. cbn. destruct (decide (k = k')) as [->|Hne].
  - rewrite lookup_insert_eq. intros [= <-]. apply unwrap_plain.
  - rewrite lookup_insert_ne by done. apply (IHupdated Hp).
Qed.

Section calls.
Context `{ExprLib} `{UnitLib}.

Lemma in_destination_units_state v pc :
  (in_destination_units v pc).1 = pc.
Proof.
  destruct v; try reflexivity. unfold in_destination_units, mbind, method_bind, gets, lift.
  destruct (getitem _ _) as [e|m]; [reflexivity|].
  destruct (m !! "units"); [|reflexivity].
  destruct (in_units_of _ _); reflexivity.
Qed.

Lemma refresh_inputs_cases g pc :
  (_valid pc = true /\ refresh_inputs g pc = (pc, inr tt)) \/
  (_valid pc = false /\ exists e, update_inputs g (name pc) = inl e
                                 /\ refresh_inputs g pc = (pc, inl e)) \/
  (_valid pc = false /\ exists l, update_inputs g (name pc) = inr l
                                 /\ refresh_inputs g pc = (store_all l pc, inr tt)).
Proof.
  unfold refresh_inputs, mbind, method_bind, gets, lift. cbn.
  destruct (_valid pc); [by left|]. right.
  destruct (update_inputs g (name pc)) as [e|l]; [left; eauto|].
  right. rewrite for_each_set. eauto.
Qed.

(** What a run leaves behind. *)
Lemma run_cases g pc :
  exists l,
    ((run g pc).1 = store_all l pc /\ exists e, (run g pc).2 = inl e) \/
    (exists v, (run g pc).1
               = with_valid true (setattr (_destexpr pc) (unwrap v) (store_all l pc))
               /\ (run g pc).2 = inr tt).
Proof.
  rewrite run_unfold.
  destruct (refresh_inputs_cases g pc) as [[_ ->]|[(_ & e & _ & ->)|(_ & l & _ & ->)]].
  - exists []. change (store_all [] pc) with pc.
    destruct (py_eval _ _) as [e|v]; [left; eauto|].
    pose proof (in_destination_units_state v pc) as Hst.
    destruct (in_destination_units v pc) as [pc2 [e|v']]; cbn in Hst; subst pc2;
      [left; eauto | right; eauto].
  - exists []. left. eauto.
  - exists l. destruct (py_eval _ _) as [e|v]; [left; eauto|].
    pose proof (in_destination_units_state v (store_all l pc)) as Hst.
    destruct (in_destination_units v (store_all l pc)) as [pc2 [e|v']];
      cbn in Hst; subst pc2; [left; eauto|]. right. exists v'.
    by rewrite store_all_destexpr.
Qed.

Lemma updated_run g pc : updated pc (run g pc).1.
Proof.
  destruct (run_cases g pc) as [l [[-> _]|[v [-> _]]]].
  - apply updated_store_all.
  - apply updated_valid, updated_setattr, updated_store_all.
Qed.

Lemma updated_linearize pc : updated pc (linearize pc).1.
Proof.
  rewrite linearize_unfold.
  destruct (evaluate_gradient _ _); [constructor|].
  destruct (mapM _ _); cbn; repeat constructor.
Qed.

Lemma updated_perform c pc : updated pc (perform c pc).
Proof.
  destruct c; cbn [perform].
  - destruct index; [constructor|]. rewrite set_spec. repeat constructor.
  - destruct index; [constructor|]. unfold get, mbind, method_bind, gets. cbn.
    destruct (attrs pc !! name0); constructor.
  - destruct index; [constructor|]. unfold get_wrapped_attr, get, mbind, method_bind, gets.
    cbn. destruct (attrs pc !! name0); constructor.
  - apply updated_run.
  - apply updated_run.
  - repeat constructor.
  - repeat constructor.
  - apply updated_linearize.
  - unfold calc_derivatives, mbind, method_bind. destruct first.
    + pose proof (updated_linearize pc) as Hl.
      destruct (linearize pc) as [p1 [e|[]]]; [exact Hl|].
      destruct second; exact Hl.
    + destruct second; constructor.
  - repeat constructor.
Qed.

Lemma updated_perform_all_from cs pc q :
  updated pc q -> updated pc (perform_all cs q).
Proof.
  unfold perform_all. revert q.
  induction cs as [|c cs IH]; intros q Hq; [exact Hq|].
  cbn [foldl]. apply IH. eapply updated_trans; [exact Hq|apply updated_perform].
Qed.

Lemma updated_perform_all cs pc : updated pc (perform_all cs pc).
Proof. apply updated_perform_all_from. constructor. Qed.

(** X16.  On a node whose destination is a slot, whatever methods are
    called, in whatever order and whether they return or raise, as long as
    [set] is called on slot names and the graphs hand over values for
    slots: the name, reference map, metadata, input list, output targets,
    source unit, expressions and equation text stay as they were, and so do
    both connection views. *)
Theorem methods_keep_structure (cs : list call) (pc : t) :
  slot_name (_destexpr pc) ->
  Forall call_on_slots cs ->
  same_structure (perform_all cs pc) pc /\
  list_connections true (perform_all cs pc) = list_connections true pc /\
  list_connections false (perform_all cs pc) = list_connections false pc.
Proof.
  intros _ _.
  pose proof (updated_same_structure _ _ (updated_perform_all cs pc)) as Hs.
  split; [exact Hs|].
  destruct Hs as (Hn & Hm & _ & _ & Ho & _).
  unfold list_connections. by rewrite Hn, Hm, Ho.
Qed.

(** X17.  No slot of a constructed node holds a unit-tagged value, and none
    does after any sequence of method calls. *)
Theorem slots_stay_plain
    (srcexpr : Expr) (destexpr : option Expr) (translate : bool)
    (w w' : World) (pc : t) (cs : list call) :
  __init__ srcexpr destexpr translate w = (w', inr pc) ->
  plain_slots pc /\ plain_slots (perform_all cs pc).
Proof.
  intros Hinit. apply __init___inv in Hinit as [_ Hinit].
  apply init_inv in Hinit
    as (slots & Hattach & _ & _ & _ & _ & _ & _ & _ & Hattrs & _).
  assert (plain_slots pc) as Hplain.
  { intros k v. rewrite Hattrs. unfold attach_metadata in Hattach.
    assert (forall rs k v, init_attrs rs !! k = Some v -> v = PyNone) as Hnone.
    { intros rs. induction rs as [|r rs IH] using rev_ind; intros k' v'.
      - unfold init_attrs. cbn. by rewrite lookup_empty.
      - unfold init_attrs. rewrite enumerate_snoc, foldl_app. cbn.
        destruct (decide (in_name (length rs) = k')) as [->|Hne].
        + rewrite lookup_insert_eq. by intros [= <-].
        + rewrite lookup_insert_ne by done. apply IH. }
    destruct (refs (default DummyExpr destexpr)) as [|r0 [|r1 rs]]; cbn in Hattach;
      try discriminate;
      (destruct (remap_meta _ _) as [e|nm]; cbn in Hattach; [discriminate|]);
      try discriminate.
    destruct (getitem _ _); cbn in Hattach; [discriminate|]. injection Hattach as <- _.
    destruct (decide ("out0" = k)) as [<-|Hne].
    - rewrite lookup_insert_eq. by intros [= <-].
    - rewrite lookup_insert_ne by done. intros Hk. by rewrite (Hnone _ _ _ Hk). }
  split; [exact Hplain|].
  exact (updated_plain_slots _ _ (updated_perform_all cs pc) Hplain).
Qed.
End calls.

(** ** Running and linearizing, case by case *)

Lemma store_all_valid l pc : _valid (store_all l pc) = _valid pc.
Proof. store_all_field. Qed.

Lemma store_all_J l pc : J (store_all l pc) = J pc.
Proof. store_all_field. Qed.

Lemma mapM_result_fails {A B} (f : A -> result B) (l : list A) x :
  x ∈ l -> (exists e, f x = inl e) ->
  exists y e, mapM (M := result) f l = inl e /\ y ∈ l /\ f y = inl e.
Proof.
  intros Hin [e He]. induction l as [|a l IH]; [inversion Hin|].
  cbn. destruct (f a) as [e'|b] eqn:Hfa; cbn.
  - exists a, e'. split; [done|]. split; [by left|done].
  - apply elem_of_cons in Hin as [->|Hin]; [congruence|].
    destruct (IH Hin) as (y & e'' & Hm & Hy & Hfy). rewrite Hm. cbn.
    exists y, e''. split; [done|]. split; [by right|done].
Qed.

Lemma mapM_result_ok {A B} (f : A -> result B) (l : list A) :
  (forall x, x ∈ l -> exists y, f x = inr y) ->
  exists row, mapM (M := result) f l = inr row.
Proof.
  induction l as [|a l IH]; intros Hall; [by exists []|].
  destruct (Hall a ltac:(by left)) as [y Hy].
  destruct IH as [row Hrow]; [intros x Hx; apply Hall; by right|].
  exists (y :: row). cbn. rewrite Hy. cbn. rewrite Hrow. reflexivity.
Qed.

Section running.
Context `{ExprLib} `{UnitLib}.

(** X18.  A valid node runs without its graph: the outcome is the same on
    any two graphs.  An invalid node first asks the graph for its inputs; a
    failure of that is the failure of [run] with the node unchanged, and
    otherwise the pairs the graph hands over are stored, unit-stripped. *)
Theorem run_consults_graph_only_when_invalid (pc : t) (g1 g2 : Graph) :
  (_valid pc = true -> run g1 pc = run g2 pc) /\
  (forall e, _valid pc = false -> update_inputs g1 (name pc) = inl e ->
     run g1 pc = (pc, inl e)) /\
  (forall l, _valid pc = false -> update_inputs g1 (name pc) = inr l ->
     refresh_inputs g1 pc = (store_all l pc, inr tt)).
Proof.
  split; [|split].
  - intros Hv. rewrite !run_unfold.
    unfold refresh_inputs, mbind, method_bind, gets. cbn. by rewrite Hv.
  - intros e Hv He. rewrite run_unfold.
    unfold refresh_inputs, mbind, method_bind, gets, lift. cbn. by rewrite Hv, He.
  - intros l Hv Hl.
    unfold refresh_inputs, mbind, method_bind, gets, lift. cbn.
    by rewrite Hv, Hl, for_each_set.
Qed.

(** X19.  A [run] that raises leaves the validity flag and the jacobian as
    they were; the node differs from the one before at most by the inputs
    the graph handed over. *)
Theorem failed_run_keeps_validity (pc pc' : t) (g : Graph) (e : exn) :
  run g pc = (pc', inl e) ->
  is_valid pc' = is_valid pc /\
  J pc' = J pc /\
  exists l, pc' = store_all l pc /\
            (l = [] \/ (_valid pc = false /\ update_inputs g (name pc) = inr l)).
Proof.
  rewrite run_unfold.
  destruct (refresh_inputs_cases g pc) as [[_ ->]|[(_ & e' & _ & ->)|(Hv & l & Hl & ->)]].
  - destruct (py_eval _ _) as [e'|v].
    + intros [= <- _]. repeat split. exists []. auto.
    + pose proof (in_destination_units_state v pc) as Hst.
      destruct (in_destination_units v pc) as [pc2 [e'|v']]; cbn in Hst; subst pc2;
        [|discriminate].
      intros [= <- _]. repeat split. exists []. auto.
  - intros [= <- _]. repeat split. exists []. auto.
  - destruct (py_eval _ _) as [e'|v].
    + intros [= <- _]. unfold is_valid. rewrite store_all_valid, store_all_J.
      repeat split. eauto.
    + pose proof (in_destination_units_state v (store_all l pc)) as Hst.
      destruct (in_destination_units v (store_all l pc)) as [pc2 [e'|v']];
        cbn in Hst; subst pc2; [|discriminate].
      intros [= <- _]. unfold is_valid. rewrite store_all_valid, store_all_J.
      repeat split. eauto.
Qed.

(** X20.  When the source evaluates to a physical quantity, [run] stores its
    plain value if [out0] declares no unit, the value converted to the
    declared unit otherwise, and raises the conversion's error, storing
    nothing, if the conversion fails. *)
Theorem run_strips_unit_tagged_result
    (pc pc1 : t) (g : Graph) (q : PhysicalQuantity) :
  refresh_inputs g pc = (pc1, inr tt) ->
  py_eval (_srcexpr pc1) (attrs pc1) = inr (PyPQ q) ->
  (forall m, _meta pc1 !! "out0" = Some m -> m !! "units" = None ->
     run g pc = (with_valid true (setattr (_destexpr pc1) (PyFloat (pq_value q)) pc1),
                 inr tt)) /\
  (forall m units q', _meta pc1 !! "out0" = Some m -> m !! "units" = Some units ->
     in_units_of q units = inr q' ->
     run g pc = (with_valid true (setattr (_destexpr pc1) (PyFloat (pq_value q')) pc1),
                 inr tt)) /\
  (forall m units e, _meta pc1 !! "out0" = Some m -> m !! "units" = Some units ->
     in_units_of q units = inl e -> run g pc = (pc1, inl e)).
Proof.
  intros Hr He. rewrite run_unfold, Hr, He.
  unfold in_destination_units, mbind, method_bind, gets, lift, getitem.
  split; [|split].
  - intros m Hm Hu. rewrite Hm. cbn. by rewrite Hu.
  - intros m u q' Hm Hu Hq. rewrite Hm. cbn. rewrite Hu. cbn. by rewrite Hq.
  - intros m u e Hm Hu Hq. rewrite Hm. cbn. rewrite Hu. cbn. by rewrite Hq.
Qed.

(** X21.  [linearize]: a failure of the gradient is raised with the node
    unchanged; a gradient without an entry for some input raises [KeyError]
    for such an input with the node unchanged; otherwise the jacobian
    becomes one row with one entry per input, in the order of the inputs. *)
Theorem linearize_outcomes (pc : t) :
  (forall e, evaluate_gradient (_srcexpr pc) (attrs pc) = inl e ->
     linearize pc = (pc, inl e)) /\
  (forall grad n, evaluate_gradient (_srcexpr pc) (attrs pc) = inr grad ->
     n ∈ _inputs pc -> grad !! n = None ->
     exists m, linearize pc = (pc, inl (Exception KeyError m))
               /\ m ∈ _inputs pc /\ grad !! m = None) /\
  (forall grad, evaluate_gradient (_srcexpr pc) (attrs pc) = inr grad ->
     (forall n, n ∈ _inputs pc -> is_Some (grad !! n)) ->
     exists row, linearize pc = (with_J [row] pc, inr tt)
                 /\ length row = length (_inputs pc)
                 /\ forall i n, _inputs pc !! i = Some n -> row !! i = grad !! n).
Proof.
  split; [|split].
  - intros e He. by rewrite linearize_unfold, He.
  - intros grad n Hg Hn Hnone. rewrite linearize_unfold, Hg.
    destruct (mapM_result_fails (getitem grad) (_inputs pc) n Hn) as (m & e & Hm & Hin & Hfm).
    { unfold getitem. rewrite Hnone. eauto. }
    rewrite Hm. unfold getitem in Hfm. destruct (grad !! m) eqn:Hgm; [discriminate|].
    injection Hfm as <-. eauto.
  - intros grad Hg Hall. rewrite linearize_unfold, Hg.
    destruct (mapM_result_ok (getitem grad) (_inputs pc)) as [row Hrow].
    { intros n Hn. destruct (Hall n Hn) as [x Hx]. exists x. unfold getitem. by rewrite Hx. }
    rewrite Hrow.
    apply mapM_result_inv in Hrow as [Hlen Hrows].
    exists row. split; [done|]. split; [done|].
    intros i n Hi. destruct (Hrows _ _ Hi) as (y & Hy & Hgy).
    unfold getitem in Hgy. destruct (grad !! n); [|discriminate].
    injection Hgy as ->. done.
Qed.
End running.

(** ** Construction at the edges *)

Section edge.
Context `{ExprLib} `{UnitLib}.

(** X6.  Without a destination expression ([destexpr=None]) the constructor
    uses [DummyExpr]: when the source metadata attaches, construction
    succeeds with no output target, runs no unit pass (no source unit, the
    source text is the translated or the given text), gives [out0] empty
    metadata and the slot value [None], has an empty hidden view, a visible
    view of input edges only, and an equation whose left side is [out0]. *)
Theorem probe_node_without_destination
    (srcexpr : Expr) (translate : bool) (w : World)
    (newmeta : gmap string metadata) :
  remap_meta (init_varmap (refs srcexpr)) (add_metadata srcexpr ∅) = inr newmeta ->
  exists pc,
    __init__ srcexpr None translate w
    = (mkWorld (S (_count w)) (parent w), inr pc) /\
    _outdests pc = [] /\
    _srcunits pc = None /\
    _srcexpr pc = local_source srcexpr translate /\
    _meta pc = <["out0" := ∅]> newmeta /\
    attrs pc !! "out0" = Some PyNone /\
    list_connections true pc = [] /\
    list_connections false pc
    = (fun sd => (sd.1, name pc +:+ "." +:+ sd.2)) <$> map_to_list (_inmap pc) /\
    _eqn pc = "out0 = "
              +:+ (if translate
                   then transform_expression (local_source srcexpr translate)
                          (_invert_dict (init_inmap (refs srcexpr)))
                   else local_source srcexpr translate).
Proof.
  intros Hremap. eexists. split.
  { unfold __init__, init, attach_metadata. cbn [default _get_new_name DummyExpr refs].
    cbn. rewrite Hremap. cbn. unfold add_metadata at 1. cbn.
    unfold getitem, _get_varname. cbn. rewrite lookup_insert_eq. cbn.
    unfold out_units_of, getitem. rewrite lookup_insert_eq. cbn.
    rewrite lookup_empty. cbn. reflexivity. }
  cbn. repeat split. by rewrite lookup_insert_eq.
Qed.

(** X7.  A destination expression without any reference makes construction
    fail: with the error of attaching the source metadata when that fails,
    and otherwise with [IndexError] (list index out of range), from
    [refs[0]]. *)
Theorem destination_without_reference_rejected
    (srcexpr destexpr : Expr) (translate : bool) (w : World) :
  refs destexpr = [] ->
  exists e,
    __init__ srcexpr (Some destexpr) translate w
    = (mkWorld (S (_count w)) (parent w), inl e) /\
    match remap_meta (init_varmap (refs srcexpr)) (add_metadata srcexpr ∅) with
    | inl e' => e = e'
    | inr _ => e = Exception IndexError "list index out of range"
    end.
Proof.
  intros Hrefs. unfold __init__, init, attach_metadata. cbn. rewrite Hrefs. cbn.
  destruct (remap_meta _ _) as [e|nm]; cbn; eauto.
Qed.

(** X8.  When the destination declares a unit and the source expression,
    evaluated on the unit-only inputs, gives a value that is not a physical
    quantity, construction raises [AttributeError] (the value has no
    [unit]). *)
Theorem unitless_source_rejected
    (srcexpr destexpr : Expr) (translate : bool) (w : World)
    (slots : gmap string value) (meta : gmap string metadata)
    (out_units : string) (tmpdict : gmap string value) (v : value) :
  attach_metadata srcexpr destexpr = inr (slots, meta) ->
  out_units_of meta = inr (Some out_units) ->
  units_env (init_inputs (refs srcexpr)) meta = inr tmpdict ->
  py_eval (local_source srcexpr translate) tmpdict = inr v ->
  (forall q, v <> PyPQ q) ->
  exists e,
    __init__ srcexpr (Some destexpr) translate w
    = (mkWorld (S (_count w)) (parent w), inl e) /\
    exn_cls e = AttributeError.
Proof.
  intros Hmeta Hou Henv Hv Hnot.
  unfold __init__, init. cbn. rewrite Hmeta. cbn. rewrite Hou. cbn.
  unfold unit_pass, infer_units. rewrite Henv. cbn. rewrite Hv. cbn.
  destruct v; try (eexists; split; reflexivity). by destruct (Hnot q).
Qed.

Lemma units_env_inv inputs meta tmpdict :
  units_env inputs meta = inr tmpdict ->
  forall inp, inp ∈ inputs ->
    exists m, meta !! inp = Some m /\
      exists x, tmpdict !! inp = Some x /\
        match x with
        | PyFloat z => z = 0%Qc
        | PyPQ q => pq_value q = 0%Qc
        | _ => False
        end.
Proof.
  unfold units_env.
  assert (forall (acc : result (gmap string value)) (tmp : gmap string value),
    foldl (fun acc inp =>
             tmpdict ← acc;
             m ← getitem meta inp;
             match m !! "units" with
             | Some units =>
                 if decide (units <> "")
                 then q ← new_PhysicalQuantity 0 units;
                      ok (<[inp := PyPQ q]> tmpdict)
                 else ok (<[inp := PyFloat 0]> tmpdict)
             | None => ok (<[inp := PyFloat 0]> tmpdict)
             end) acc inputs = inr tmp ->
    exists tmp0, acc = inr tmp0 /\
    (forall inp x, tmp0 !! inp = Some x -> inp ∉ inputs -> tmp !! inp = Some x) /\
    forall inp, inp ∈ inputs ->
      exists m, meta !! inp = Some m /\
        exists x, tmp !! inp = Some x /\
          match x with
          | PyFloat z => z = 0%Qc
          | PyPQ q => pq_value q = 0%Qc
          | _ => False
          end) as Hgen.
  { induction inputs as [|a l IH] using rev_ind; intros acc tmp.
    - cbn. intros ->. exists tmp. split; [done|]. split; [auto|]. intros inp Hin. inversion Hin.
    - rewrite foldl_app. cbn [foldl].
      destruct (foldl _ acc l) as [e|tmp1] eqn:Hf; cbn; [discriminate|].
      destruct (IH acc tmp1 Hf) as (tmp0 & -> & Hkeep & Hall).
      unfold getitem. destruct (meta !! a) as [m|] eqn:Hm; cbn; [|discriminate].
      intros Hstep. exists tmp0. split; [done|].
      assert (exists x, tmp = <[a := x]> tmp1 /\
                match x with
                | PyFloat z => z = 0%Qc
                | PyPQ q => pq_value q = 0%Qc
                | _ => False
                end) as (x & -> & Hx).
      { destruct (m !! "units") as [u|].
        - destruct (decide (u <> "")).
          + unfold new_PhysicalQuantity in Hstep.
            destruct (find_unit u) as [e|u']; cbn in Hstep; [discriminate|].
            injection Hstep as <-. eexists. split; [done|]. done.
          + injection Hstep as <-. eexists. split; [done|]. done.
        - injection Hstep as <-. eexists. split; [done|]. done. }
      split.
      + intros inp y Hy Hnin. rewrite not_elem_of_app, list_elem_of_singleton in Hnin.
        destruct Hnin as [Hnl Hna]. rewrite lookup_insert_ne by done. auto.
      + intros inp Hin. apply elem_of_app in Hin.
        destruct (decide (inp = a)) as [->|Hne].
        * exists m. split; [done|]. exists x. by rewrite lookup_insert_eq.
        * destruct Hin as [Hin|Hin]; [|by apply list_elem_of_singleton in Hin].
          destruct (Hall inp Hin) as (m' & Hm' & y & Hy & Hyy).
          exists m'. split; [done|]. exists y. by rewrite lookup_insert_ne. }
  intros Henv. destruct (Hgen _ _ Henv) as (_ & _ & _ & Hall). exact Hall.
Qed.

(** X10.  A constructed node whose destination declares a unit has metadata
    for [out0] and for every one of its input slots. *)
Theorem declared_unit_needs_input_metadata
    (srcexpr : Expr) (destexpr : option Expr) (translate : bool)
    (w w' : World) (pc : t) (out_units : string) :
  __init__ srcexpr destexpr translate w = (w', inr pc) ->
  declared_unit pc = Some out_units ->
  is_Some (_meta pc !! "out0") /\
  forall inp, inp ∈ _inputs pc -> is_Some (_meta pc !! inp).
Proof.
  intros Hinit Hdecl. apply __init___inv in Hinit as [_ Hinit].
  apply init_inv in Hinit
    as (slots & _ & _ & _ & _ & Hinputs & _ & _ & _ & _ & _ & Hunits).
  rewrite Hdecl in Hunits. destruct Hunits as (su & Hpass & _).
  split.
  { unfold declared_unit in Hdecl. destruct (_meta pc !! "out0"); [eauto|discriminate]. }
  unfold unit_pass, infer_units in Hpass.
  destruct (units_env _ _) as [e|tmp] eqn:Henv; [discriminate|].
  intros inp Hin. rewrite Hinputs in Hin.
  destruct (units_env_inv _ _ _ Henv inp Hin) as (m & Hm & _). eauto.
Qed.
End edge.

(** ** Metadata by slot *)

Lemma remap_fold_spec (varmap : gmap string string) (l : list (string * metadata))
    (acc0 nm : gmap string metadata) :
  foldl (fun acc kv =>
           newmeta ← acc;
           local ← getitem varmap kv.1;
           ok (<[local := kv.2]> newmeta))
        (inr acc0) l = inr nm ->
  NoDup l.*1 ->
  (forall k v, (k, v) ∈ l -> is_Some (varmap !! k)) /\
  (forall local val, nm !! local = Some val ->
     acc0 !! local = Some val \/ exists k, (k, val) ∈ l /\ varmap !! k = Some local) /\
  (forall k v local, (k, v) ∈ l -> varmap !! k = Some local ->
     (forall k' v', (k', v') ∈ l -> varmap !! k' = Some local -> k' = k) ->
     nm !! local = Some v).
Proof.
  revert nm. induction l as [|[k0 v0] l IH] using rev_ind; intros nm.
  - cbn. intros [= <-] _. split; [intros k v Hin; inversion Hin|].
    split; [auto|]. intros k v local Hin; inversion Hin.
  - rewrite foldl_app. cbn [foldl].
    match goal with
    | |- context [foldl ?f (inr acc0) l] =>
        destruct (foldl f (inr acc0) l) as [e|nm1] eqn:Hf; cbn; [discriminate|]
    end.
    unfold getitem. destruct (varmap !! k0) as [local0|] eqn:Hk0; cbn; [|discriminate].
    intros [= <-] Hnd. rewrite fmap_app in Hnd.
    apply NoDup_app in Hnd as (Hnd & Hnotin & _).
    destruct (IH nm1 eq_refl Hnd) as (Hdom & Hfrom & Hto).
    split; [|split].
    + intros k v [Hin|Hin%list_elem_of_singleton]%elem_of_app; [eauto|].
      injection Hin as -> ->. eauto.
    + intros local val. destruct (decide (local0 = local)) as [->|Hne].
      * rewrite lookup_insert_eq. intros [= <-]. right. exists k0.
        split; [|done]. apply elem_of_app. right. by apply list_elem_of_singleton.
      * rewrite lookup_insert_ne by done. intros Hl.
        destruct (Hfrom _ _ Hl) as [|(k & Hin & Hk)]; [by left|].
        right. exists k. split; [|done]. apply elem_of_app. by left.
    + intros k v local Hin Hk Huniq.
      apply elem_of_app in Hin as [Hin|Hin%list_elem_of_singleton].
      * destruct (decide (local0 = local)) as [->|Hne].
        -- exfalso. assert (k0 = k) as ->.
           { eapply Huniq; [|done]. apply elem_of_app. right.
             by apply list_elem_of_singleton. }
           eapply Hnotin; [|by apply list_elem_of_singleton].
           apply list_elem_of_fmap. exists (k, v). split; [done|]. done.
        -- rewrite lookup_insert_ne by done. eapply Hto; [done..|].
           intros k' v' Hin' Hk'. eapply Huniq; [|done]. apply elem_of_app. by left.
      * injection Hin as -> ->. rewrite Hk in Hk0. injection Hk0 as ->.
        by rewrite lookup_insert_eq.
Qed.

Lemma remap_meta_spec varmap meta newmeta :
  remap_meta varmap meta = inr newmeta ->
  (forall key val, meta !! key = Some val -> is_Some (varmap !! key)) /\
  (forall local val, newmeta !! local = Some val ->
     exists key, meta !! key = Some val /\ varmap !! key = Some local) /\
  (forall key val local, meta !! key = Some val -> varmap !! key = Some local ->
     (forall key', is_Some (meta !! key') -> varmap !! key' = Some local -> key' = key) ->
     newmeta !! local = Some val).
Proof.
  unfold remap_meta. intros Hf.
  destruct (remap_fold_spec _ _ _ _ Hf (NoDup_fst_map_to_list meta)) as (Hdom & Hfrom & Hto).
  split; [|split].
  - intros key val Hk. eapply Hdom. by apply elem_of_map_to_list.
  - intros local val Hl. destruct (Hfrom _ _ Hl) as [Hempty|(k & Hin & Hk)].
    + by rewrite lookup_empty in Hempty.
    + exists k. split; [by apply elem_of_map_to_list|done].
  - intros key val local Hk Hv Huniq. eapply Hto; [by apply elem_of_map_to_list|done|].
    intros k' v' Hin' Hk'. apply elem_of_map_to_list in Hin'. eapply Huniq; eauto.
Qed.

Lemma init_varmap_snoc rs r :
  init_varmap (rs ++ [r])
  = <[_get_varname r := in_name (length rs)]> (init_varmap rs).
Proof. unfold init_varmap. by rewrite enumerate_snoc, foldl_app. Qed.

(** The variable of a reference is mapped to the slot of the last
    reference to that variable. *)
Lemma init_varmap_last rs k n :
  init_varmap rs !! k = Some n ->
  exists i r, rs !! i = Some r /\ _get_varname r = k /\ n = in_name i /\
    forall j r', rs !! j = Some r' -> _get_varname r' = k -> (j <= i)%nat.
Proof.
  revert n. induction rs as [|x rs IH] using rev_ind; intros n.
  - unfold init_varmap. cbn. by rewrite lookup_empty.
  - rewrite init_varmap_snoc. destruct (decide (_get_varname x = k)) as [<-|Hne].
    + rewrite lookup_insert_eq. intros [= <-]. exists (length rs), x.
      split; [by rewrite lookup_app_r, Nat.sub_diag by lia|]. split; [done|]. split; [done|].
      intros j r' Hj _. apply lookup_lt_Some in Hj. rewrite length_app in Hj. cbn in Hj. lia.
    + rewrite lookup_insert_ne by done. intros Hl.
      destruct (IH _ Hl) as (i & r & Hi & Hr & -> & Hlast).
      exists i, r. split; [by apply lookup_app_l_Some|]. split; [done|]. split; [done|].
      intros j r' Hj Hr'. destruct (decide (j < length rs)%nat) as [Hlt|Hge].
      * rewrite lookup_app_l in Hj by done. eauto.
      * apply lookup_lt_Some in Hj as Hlen. rewrite length_app in Hlen. cbn in Hlen.
        assert (j = length rs) as -> by lia.
        rewrite lookup_app_r, Nat.sub_diag in Hj by lia. injection Hj as <-. congruence.
Qed.

Lemma init_varmap_lookup rs i r :
  NoDup (_get_varname <$> rs) -> rs !! i = Some r ->
  init_varmap rs !! _get_varname r = Some (in_name i).
Proof.
  revert i. induction rs as [|x rs IH] using rev_ind; intros i Hnd Hi; [done|].
  rewrite fmap_app in Hnd. apply NoDup_app in Hnd as (Hnd & Hnotin & _).
  rewrite init_varmap_snoc.
  destruct (decide (i < length rs)%nat) as [Hlt|Hge].
  - rewrite lookup_app_l in Hi by done.
    rewrite lookup_insert_ne; [eauto|].
    intros E. eapply (Hnotin (_get_varname r)).
    + apply list_elem_of_fmap. exists r. split; [done|]. by eapply list_elem_of_lookup_2.
    + cbn. rewrite E. by apply list_elem_of_singleton.
  - apply lookup_lt_Some in Hi as Hlen. rewrite length_app in Hlen. cbn in Hlen.
    assert (i = length rs) as -> by lia.
    rewrite lookup_app_r, Nat.sub_diag in Hi by lia. injection Hi as ->.
    apply lookup_insert_eq.
Qed.

Section meta.
Context `{ExprLib} `{UnitLib}.

Lemma attach_metadata_inv src dest slots meta :
  attach_metadata src dest = inr (slots, meta) ->
  exists r0 newmeta outmeta,
    refs dest = [r0] /\
    remap_meta (init_varmap (refs src)) (add_metadata src ∅) = inr newmeta /\
    getitem (add_metadata dest (add_metadata src ∅)) (_get_varname r0) = inr outmeta /\
    slots = <["out0" := PyNone]> (init_attrs (refs src)) /\
    meta = <["out0" := outmeta]> newmeta.
Proof.
  unfold attach_metadata. intros Hinit.
  destruct (refs dest) as [|r0 [|r1 rs]] eqn:Hrefs; cbn in Hinit; try discriminate;
    (destruct (remap_meta _ _) as [e|newmeta] eqn:Hnm; cbn in Hinit; [discriminate|]);
    try discriminate.
  destruct (getitem _ _) as [e|outmeta] eqn:Hom; cbn in Hinit; [discriminate|].
  injection Hinit as <- <-. exists r0, newmeta, outmeta. auto.
Qed.

(** X11.  For a constructed node, every variable the source metadata names
    is the variable of some reference.  When the references have pairwise
    different variables, slot [in<i>] carries the metadata of the variable
    of the i-th reference.  When two references share a variable, the slot
    of the earlier one has no metadata and the node has no declared
    destination unit. *)
Theorem slot_metadata
    (srcexpr : Expr) (destexpr : option Expr) (translate : bool)
    (w w' : World) (pc : t) :
  __init__ srcexpr destexpr translate w = (w', inr pc) ->
  (forall key val, add_metadata srcexpr ∅ !! key = Some val ->
     exists i r, refs srcexpr !! i = Some r /\ _get_varname r = key) /\
  (NoDup (_get_varname <$> refs srcexpr) ->
   forall i r md, refs srcexpr !! i = Some r ->
     add_metadata srcexpr ∅ !! _get_varname r = Some md ->
     _meta pc !! in_name i = Some md) /\
  (forall i j r r', refs srcexpr !! i = Some r -> refs srcexpr !! j = Some r' ->
     (i < j)%nat -> _get_varname r = _get_varname r' ->
     _meta pc !! in_name i = None /\ declared_unit pc = None).
Proof.
  intros Hinit. apply __init___inv in Hinit as [_ Hinit].
  pose proof Hinit as Hinit0.
  apply init_inv in Hinit
    as (slots & Hattach & _ & _ & _ & Hinputs & _ & _ & _ & _ & _ & Hunits).
  apply attach_metadata_inv in Hattach as (r0 & newmeta & outmeta & _ & Hremap & _ & _ & Hmeta).
  apply remap_meta_spec in Hremap as (Hdom & Hfrom & Hto).
  split; [|split].
  - intros key val Hk. destruct (Hdom _ _ Hk) as [n Hn].
    apply init_varmap_last in Hn as (i & r & Hi & Hr & _). eauto.
  - intros Hnd i r md Hi Hmd. rewrite Hmeta.
    rewrite lookup_insert_ne by (apply not_eq_sym, in_name_not_out0).
    eapply Hto; [done|by apply init_varmap_lookup|].
    intros key' _ Hk'. apply init_varmap_last in Hk' as (i' & r' & Hi' & Hr' & E & _).
    apply in_name_inj in E. subst i'. congruence.
  - intros i j r r' Hi Hj Hlt Hsame.
    assert (_meta pc !! in_name i = None) as Hnone.
    { rewrite Hmeta. rewrite lookup_insert_ne by (apply not_eq_sym, in_name_not_out0).
      destruct (newmeta !! in_name i) as [val|] eqn:Hl; [|done]. exfalso.
      destruct (Hfrom _ _ Hl) as (key & _ & Hk).
      apply init_varmap_last in Hk as (i' & r2 & Hi' & Hr2 & E & Hlast).
      apply in_name_inj in E. subst i'.
      assert (r2 = r) as -> by congruence.
      specialize (Hlast j r' Hj). rewrite <- Hsame in Hlast. specialize (Hlast Hr2). lia. }
    split; [exact Hnone|].
    destruct (declared_unit pc) as [ou|] eqn:Hdecl; [|done]. exfalso.
    destruct Hunits as (su & Hpass & _).
    unfold unit_pass, infer_units in Hpass.
    destruct (units_env _ _) as [e|tmp] eqn:Henv; [discriminate|].
    destruct (units_env_inv _ _ _ Henv (in_name i)) as (m & Hm & _).
    { eapply list_elem_of_lookup_2, init_inputs_lookup, Hi. }
    congruence.
Qed.
End meta.

(** ** Unit-pass failures, the parameter node and the rewrite *)

Lemma store_all_with_outdests ds l pc :
  store_all l (with_outdests ds pc) = with_outdests ds (store_all l pc).
Proof.
  unfold store_all. revert pc. induction l as [|[k v] l IH]; intros pc; [done|].
  cbn [foldl]. rewrite <- IH. reflexivity.
Qed.

Section param.
Context `{ExprLib} `{UnitLib}.

(** X9.  With a declared destination unit: a failure of the unit inference
    or of parsing the source text is the failure of the constructor, as it
    is; a failure of [unit_xform], of whatever class, is re-raised as
    [TypeError] with the message [Can't connect '<src>' to '<dest>': <err>];
    and [unit_xform] itself passes on an unknown destination unit's error
    unchanged. *)
Theorem unit_pass_failures
    (srcexpr destexpr : Expr) (translate : bool) (w : World)
    (slots : gmap string value) (meta : gmap string metadata) (out_units : string) :
  attach_metadata srcexpr destexpr = inr (slots, meta) ->
  out_units_of meta = inr (Some out_units) ->
  let inferred :=
    infer_units (init_inputs (refs srcexpr)) meta (local_source srcexpr translate) in
  let parsed := ast_parse (local_source srcexpr translate) in
  let failed e :=
    __init__ srcexpr (Some destexpr) translate w
    = (mkWorld (S (_count w)) (parent w), inl e) in
  (forall e, inferred = inl e -> failed e) /\
  (forall su e, inferred = inr su -> parsed = inl e -> failed e) /\
  (forall su tree e, inferred = inr su -> parsed = inr tree ->
     unit_xform tree su out_units = inl e ->
     failed (Exception TypeError
               ("Can't connect '" +:+ text srcexpr +:+ "' to '" +:+ text destexpr
                +:+ "': " +:+ exn_msg e))) /\
  (forall su u, find_unit su = inr u ->
     forall e, find_unit out_units = inl e ->
     forall tree, unit_xform tree su out_units = inl e).
Proof.
  intros Hmeta Hou inferred parsed failed. subst inferred parsed failed. cbn beta.
  assert (forall r,
    unit_pass srcexpr destexpr (init_inputs (refs srcexpr)) meta
      (local_source srcexpr translate) out_units = inl r ->
    __init__ srcexpr (Some destexpr) translate w
    = (mkWorld (S (_count w)) (parent w), inl r)) as Hwrap.
  { intros r Hr. unfold __init__, init. cbn. rewrite Hmeta. cbn. rewrite Hou. cbn.
    by rewrite Hr. }
  split; [|split; [|split]].
  - intros e He. apply Hwrap. unfold unit_pass. by rewrite He.
  - intros su e Hsu He. apply Hwrap. unfold unit_pass. rewrite Hsu. cbn. by rewrite He.
  - intros su tree e Hsu Htree He. apply Hwrap. unfold unit_pass.
    rewrite Hsu. cbn. rewrite Htree. cbn. by rewrite He.
  - intros su u Hsu e He tree. unfold unit_xform, new_PhysicalQuantity.
    rewrite Hsu. cbn. by rewrite He.
Qed.

Lemma run_with_outdests ds g pc :
  run g (with_outdests ds pc)
  = (with_outdests ds (run g pc).1, (run g pc).2).
Proof.
  rewrite !run_unfold.
  assert (refresh_inputs g (with_outdests ds pc)
          = (with_outdests ds (refresh_inputs g pc).1, (refresh_inputs g pc).2)) as ->.
  { unfold refresh_inputs, mbind, method_bind, gets, lift.
    destruct pc as [nm ? ? [|] ? ? ? ? ? ? ? ? ?]; [reflexivity|].
    cbn [with_outdests name _valid fst snd].
    destruct (update_inputs g nm) as [e|l]; [reflexivity|].
    rewrite !for_each_set, store_all_with_outdests. reflexivity. }
  destruct (refresh_inputs g pc) as [pc1 [e|[]]]; [done|]. cbn [fst snd].
  change (_srcexpr (with_outdests ds pc1)) with (_srcexpr pc1).
  change (attrs (with_outdests ds pc1)) with (attrs pc1).
  destruct (py_eval _ _) as [e|v]; [done|].
  assert (in_destination_units v (with_outdests ds pc1)
          = (with_outdests ds pc1, (in_destination_units v pc1).2)) as ->.
  { destruct v; try reflexivity.
    unfold in_destination_units, mbind, method_bind, gets, lift. cbn.
    destruct (getitem _ _) as [e|m]; [reflexivity|].
    destruct (m !! "units"); [|reflexivity].
    destruct (in_units_of _ _); reflexivity. }
  pose proof (in_destination_units_state v pc1) as Hst.
  destruct (in_destination_units v pc1) as [pc2 [e|v']]; cbn in Hst; subst pc2; done.
Qed.

(** X23.  Adding targets to a parameter node appends one visible edge
    [(name.out0, target)] per target, in order, keeps the hidden view empty,
    and changes neither the outcome of [run] nor the slots it leaves; the
    targets survive the run. *)
Theorem add_target_fans_out
    (p : ParamPseudoComponent.t) (targets : list string) (g : Graph) :
  let p' := foldl (fun p t => ParamPseudoComponent.add_target t p) p targets in
  ParamPseudoComponent.list_connections false p'
  = ParamPseudoComponent.list_connections false p
    ++ ((fun t => (name (ParamPseudoComponent.base p) +:+ ".out0", t)) <$> targets) /\
  ParamPseudoComponent.list_connections true p' = [] /\
  (ParamPseudoComponent.call (run g) p').2 = (ParamPseudoComponent.call (run g) p).2 /\
  attrs (ParamPseudoComponent.base (ParamPseudoComponent.call (run g) p').1)
  = attrs (ParamPseudoComponent.base (ParamPseudoComponent.call (run g) p).1) /\
  _outdests (ParamPseudoComponent.base (ParamPseudoComponent.call (run g) p').1)
  = _outdests (ParamPseudoComponent.base p) ++ targets.
Proof.
  cbn zeta. unfold ParamPseudoComponent.list_connections, ParamPseudoComponent.call.
  rewrite add_targets_base. cbn [_outdests name with_outdests].
  rewrite fmap_app. split; [by destruct (ParamPseudoComponent.base p)|]. split; [done|].
  rewrite run_with_outdests.
  destruct (run g (ParamPseudoComponent.base p)) as [b r]. cbn. auto.
Qed.

(** X22.  A ParamPseudoComponent for a target with one reference is always
    constructed: [None] for the scaler reads 1 and for the adder 0, the source
    is the text chosen for them with the one input [in0], no unit pass runs,
    the node starts invalid, the target is the output target and the equation
    is the target, [" = "] and the source text. *)
Theorem param_node_construction
    (target r : string) (scaler adder : option Qc) (w : World) :
  let s := default 1%Qc scaler in
  let a := default 0%Qc adder in
  text_refs (ParamPseudoComponent.source_text s a) = ["in0"] ->
  text_refs target = [r] ->
  exists p,
    ParamPseudoComponent.__init__ target scaler adder w
    = (mkWorld (S (_count w)) (parent w), inr p) /\
    ParamPseudoComponent.scaler p = s /\ ParamPseudoComponent.adder p = a /\
    _srcexpr (ParamPseudoComponent.base p) = ParamPseudoComponent.source_text s a /\
    _srcunits (ParamPseudoComponent.base p) = None /\
    declared_unit (ParamPseudoComponent.base p) = None /\
    _inputs (ParamPseudoComponent.base p) = ["in0"] /\
    _valid (ParamPseudoComponent.base p) = false /\
    _outdests (ParamPseudoComponent.base p)
    = (if decide (target <> "") then [target] else []) /\
    _eqn (ParamPseudoComponent.base p)
    = (if decide (target <> "") then target else "out0") +:+ " = "
      +:+ ParamPseudoComponent.source_text s a.
Proof.
  intros s a Hsrc Hdst. subst s a.
  unfold ParamPseudoComponent.__init__. cbv zeta.
  unfold ParamPseudoComponent.ConnectedExprEvaluator. rewrite Hsrc, Hdst.
  cbn [fmap list_fmap]. unfold __init__, init.
  cbn [_get_new_name text refs]. unfold local_source. cbn [text refs].
  match goal with
  | |- context [attach_metadata ?e1 ?e2] =>
      assert (attach_metadata e1 e2
              = inr (<["out0" := PyNone]> (init_attrs ["in0"]),
                     <["out0" := ∅]> ({[ "in0" := ∅ ]} : gmap string metadata))) as ->
  end.
  { unfold attach_metadata. cbn [refs].
    replace (remap_meta _ _) with (inr {[ "in0" := ∅ ]} : result (gmap string metadata))
      by (vm_compute; reflexivity).
    cbn. unfold add_metadata. cbn. unfold getitem. rewrite lookup_insert_eq. reflexivity. }
  cbn. unfold out_units_of, getitem. rewrite lookup_insert_eq. cbn.
  rewrite lookup_empty. cbn.
  eexists. split; [reflexivity|]. cbn. repeat split.
Qed.

(** X4.  [scaler_adder_xform] at scaler 1 and adder 0 is [do_nothing_xform];
    an evaluation error of the tree is the error of the rewritten tree; and
    two rewrites in a row evaluate to [((v + o1) * s1 + o2) * s2], the
    operations of the two rewrites in their order. *)
Theorem scaler_adder_xform_composes (node : AST) (d : gmap string value) :
  scaler_adder_xform node 1 0 = do_nothing_xform node /\
  (forall scaler adder e, eval_node d node = inl e ->
     eval_node d (scaler_adder_xform node scaler adder) = inl e) /\
  (forall s1 o1 s2 o2 v, eval_node d node = inr (PyFloat v) ->
     eval_node d (scaler_adder_xform (scaler_adder_xform node s1 o1) s2 o2)
     = inr (PyFloat (((v + o1) * s1 + o2) * s2)%Qc)).
Proof.
  split; [|split].
  - unfold scaler_adder_xform, do_nothing_xform.
    rewrite !decide_False by (intros Hne; by apply Hne). done.
  - intros s o e He. unfold scaler_adder_xform.
    destruct (decide (o <> 0%Qc)), (decide (s <> 1%Qc)); cbn; by rewrite ?He.
  - intros s1 o1 s2 o2 v Hv.
    by apply scaler_adder_xform_sound, scaler_adder_xform_sound.
Qed.
End param.

(** ** The further properties on concrete nodes *)

Lemma second_node_constructed :
  __init__ one_src (Some inch_dst) true (mkWorld 1 demo_graph)
  = (mkWorld 2 demo_graph, inr second_node).
Proof. by_compute. Qed.

(** X5 on two nodes constructed in a row. *)
Lemma constructed_names_differ_witness : name demo_node <> name second_node.
Proof.
  apply (constructed_names_differ feet_src one_src (Some inch_dst) (Some inch_dst)
           true true demo_world (mkWorld 1 demo_graph) (mkWorld 1 demo_graph)
           (mkWorld 2 demo_graph) demo_node second_node
           demo_node_constructed second_node_constructed).
  cbn. lia.
Defined.

(** X12 on the node of [c = a + b]. *)
Lemma connection_views_witness :
  exists ins,
    list_connections false demo_node = ins ++ [("_pseudo_0.out0", "c")] /\
    ins ≡ₚ [("a", "_pseudo_0.in0"); ("b", "_pseudo_0.in1")] /\
    list_connections true demo_node ≡ₚ [("a", "c"); ("b", "c")].
Proof.
  assert (NoDup (refs feet_src)) as Hnd by by_decide.
  destruct (connection_views feet_src (Some inch_dst) true demo_world
              (mkWorld 1 demo_graph) demo_node demo_node_constructed Hnd)
    as (ins & Hvis & Hins & _ & Hhid).
  exists ins. split; [exact Hvis|]. split; [exact Hins|exact Hhid].
Defined.

(** X14 on the node of [c = a + b]. *)
Lemma fresh_slots_hold_None_witness :
  get "in1" None demo_node = (demo_node, inr PyNone) /\
  get "out0" None demo_node = (demo_node, inr PyNone).
Proof.
  assert (refs feet_src !! 1%nat = Some "b") as Hb by by_compute.
  destruct (fresh_slots_hold_None feet_src (Some inch_dst) true demo_world
              (mkWorld 1 demo_graph) demo_node demo_node_constructed)
    as (Hin & Hout & _).
  split; [exact (Hin 1%nat "b" Hb)|exact Hout].
Defined.

(** X17 after a run and a linearization. *)
Lemma slots_stay_plain_witness :
  plain_slots (perform_all [Call_run demo_graph; Call_linearize] demo_node).
Proof.
  exact (proj2 (slots_stay_plain feet_src (Some inch_dst) true demo_world
                  (mkWorld 1 demo_graph) demo_node
                  [Call_run demo_graph; Call_linearize] demo_node_constructed)).
Defined.

(** X19 on a run whose inputs were never fed. *)
Lemma failed_run_keeps_validity_witness :
  (run idle_graph demo_node).2 = inl (Exception TypeError "Incompatible types") /\
  is_valid (run idle_graph demo_node).1 = false /\
  J (run idle_graph demo_node).1 = None.
Proof.
  assert (run idle_graph demo_node
          = ((run idle_graph demo_node).1,
             inl (Exception TypeError "Incompatible types"))) as Hrun by by_compute.
  destruct (failed_run_keeps_validity demo_node (run idle_graph demo_node).1
              idle_graph _ Hrun) as (Hv & HJ & _).
  split; [by rewrite Hrun|]. split; [exact Hv|exact HJ].
Defined.

(** X20: three feet arrive as 36 in the slot of an inch destination. *)
Lemma run_strips_unit_tagged_result_witness :
  (run (H:=tagged_exprs) idle_graph demo_node).2 = inr tt /\
  attrs (run (H:=tagged_exprs) idle_graph demo_node).1 !! "out0"
  = Some (PyFloat (float 36)).
Proof.
  assert (refresh_inputs idle_graph demo_node = (demo_node, inr tt)) as Hin
    by by_compute.
  assert (in_units_of (mkPQ (float 3) "ft") "inch" = inr (mkPQ (float 36) "inch"))
    as Hconv by by_compute.
  destruct (run_strips_unit_tagged_result (H:=tagged_exprs) demo_node demo_node
              idle_graph (mkPQ (float 3) "ft") Hin eq_refl) as (_ & Hunits & _).
  rewrite (Hunits {[ "units" := "inch" ]} "inch" (mkPQ (float 36) "inch")
             eq_refl eq_refl Hconv).
  split; reflexivity.
Defined.

(** X6 on the source [a]. *)
Lemma probe_node_without_destination_witness :
  exists pc,
    __init__ one_src None true demo_world = (mkWorld 1 demo_graph, inr pc) /\
    _outdests pc = [] /\ _srcunits pc = None /\ list_connections true pc = [].
Proof.
  assert (remap_meta (init_varmap (refs one_src)) (add_metadata one_src ∅)
          = inr {[ "in0" := {[ "units" := "ft" ]} ]}) as Hmeta by by_compute.
  destruct (probe_node_without_destination one_src true demo_world _ Hmeta)
    as (pc & Hinit & Hout & Hsu & _ & _ & _ & Hhid & _).
  exists pc. split; [exact Hinit|]. split; [exact Hout|]. split; [exact Hsu|exact Hhid].
Defined.

(** X7 on a constant destination. *)
Lemma destination_without_reference_rejected_witness :
  __init__ one_src (Some constant_dst) true demo_world
  = (mkWorld 1 demo_graph, inl (Exception IndexError "list index out of range")).
Proof.
  destruct (destination_without_reference_rejected one_src constant_dst true
              demo_world eq_refl) as (e & Hinit & He).
  vm_compute in He. rewrite Hinit, He. reflexivity.
Defined.

(** X8: a source without a unit into a destination in inches. *)
Lemma unitless_source_rejected_witness :
  exists e,
    __init__ bare_src (Some inch_dst) true demo_world
    = (mkWorld 1 demo_graph, inl e) /\
    exn_cls e = AttributeError.
Proof.
  assert (attach_metadata bare_src inch_dst
          = inr ({[ "in0" := PyNone; "out0" := PyNone ]},
                 {[ "in0" := ∅; "out0" := {[ "units" := "inch" ]} ]})) as Hmeta
    by by_compute.
  assert (units_env (init_inputs (refs bare_src))
            {[ "in0" := ∅; "out0" := {[ "units" := "inch" ]} ]}
          = inr {[ "in0" := PyFloat 0 ]}) as Henv by by_compute.
  assert (py_eval (local_source bare_src true) {[ "in0" := PyFloat 0 ]}
          = inr (PyFloat 0)) as Hv by by_compute.
  apply (unitless_source_rejected bare_src inch_dst true demo_world _ _ "inch" _ _
           Hmeta eq_refl Henv Hv).
  intros q. discriminate.
Defined.

(** X10 on the node of [c = a + b]. *)
Lemma declared_unit_needs_input_metadata_witness :
  is_Some (_meta demo_node !! "out0") /\
  forall inp, inp ∈ _inputs demo_node -> is_Some (_meta demo_node !! inp).
Proof.
  exact (declared_unit_needs_input_metadata feet_src (Some inch_dst) true demo_world
           (mkWorld 1 demo_graph) demo_node "inch" demo_node_constructed eq_refl).
Defined.

(** X11 on two elements of one array. *)
Lemma slot_metadata_witness :
  exists pc,
    (__init__ indexed_src None true demo_world).2 = inr pc /\
    _meta pc !! "in0" = None /\ declared_unit pc = None.
Proof.
  destruct (__init__ indexed_src None true demo_world) as [w' [e|pc]] eqn:Hinit;
    [vm_compute in Hinit; discriminate|].
  exists pc. split; [reflexivity|].
  destruct (slot_metadata indexed_src None true demo_world w' pc Hinit)
    as (_ & _ & Hshared).
  apply (Hshared 0%nat 1%nat "a[0]" "a[1]"); [reflexivity|reflexivity|lia|reflexivity].
Defined.

(** X9: the unit library does not know the destination unit. *)
Lemma unit_pass_failures_witness :
  __init__ feet_src (Some furlong_dst) true demo_world
  = (mkWorld 1 demo_graph,
     inl (Exception TypeError
            "Can't connect 'a+b' to 'c': no unit named 'furlong' is defined")).
Proof.
  assert (attach_metadata feet_src furlong_dst
          = inr ({[ "in0" := PyNone; "in1" := PyNone; "out0" := PyNone ]},
                 {[ "in0" := {[ "units" := "ft" ]}; "in1" := {[ "units" := "ft" ]};
                    "out0" := {[ "units" := "furlong" ]} ]})) as Hmeta by by_compute.
  destruct (unit_pass_failures feet_src furlong_dst true demo_world _ _ "furlong"
              Hmeta eq_refl) as (_ & _ & Hwrap & _).
  apply (Hwrap "ft" (BinOp (Name "in0") Add (Name "in1"))
           (Exception ValueError "no unit named 'furlong' is defined"));
    by_compute.
Defined.

(** X22 at scaler 2 and adder 1. *)
Lemma param_node_construction_witness :
  exists p,
    ParamPseudoComponent.__init__ "x" (Some (float 2)) (Some (float 1)) demo_world
    = (mkWorld 1 demo_graph, inr p) /\
    _srcexpr (ParamPseudoComponent.base p) = "(in0+1)*2" /\
    _outdests (ParamPseudoComponent.base p) = ["x"].
Proof.
  assert (text_refs (ParamPseudoComponent.source_text (float 2) (float 1)) = ["in0"])
    as Hsrc by by_compute.
  destruct (param_node_construction "x" "x" (Some (float 2)) (Some (float 1))
              demo_world Hsrc eq_refl)
    as (p & Hinit & _ & _ & Hs & _ & _ & _ & _ & Hd & _).
  exists p. split; [exact Hinit|]. split; [rewrite Hs; by_compute|exact Hd].
Defined.

Lemma slot_name_out0 : slot_name "out0".
Proof. by left. Qed.

Lemma slot_name_in (i : nat) : slot_name (in_name i).
Proof. right. by exists i. Qed.

(** X15 on the node of [c = a + b]: a unit-tagged value set into [in0]. *)
Lemma accessors_frame_witness :
  is_valid (set "in0" (PyPQ (mkPQ (float 1) "ft")) None demo_node).1 = false /\
  (get "in1" None (set "in0" (PyPQ (mkPQ (float 1) "ft")) None demo_node).1).2
  = inr PyNone.
Proof.
  destruct (accessors_frame demo_node "in0" "in1" (PyPQ (mkPQ (float 1) "ft")) None
              (slot_name_in 0) (slot_name_in 1)) as (Hvalid & _ & Hother & _).
  split; [exact Hvalid|]. rewrite Hother; [reflexivity|discriminate].
Defined.

(** X16 after a set, a run, a linearization and a connect. *)
Lemma methods_keep_structure_witness :
  same_structure
    (perform_all [Call_set "in0" (PyFloat (float 1)) None; Call_run demo_graph;
                  Call_linearize; Call_connect "a" "_pseudo_0.in0"] demo_node)
    demo_node.
Proof.
  apply (methods_keep_structure
           [Call_set "in0" (PyFloat (float 1)) None; Call_run demo_graph;
            Call_linearize; Call_connect "a" "_pseudo_0.in0"] demo_node).
  - exact slot_name_out0.
  - constructor; [exact (slot_name_in 0)|].
    constructor; [|repeat constructor].
    intros nm feed [= <-].
    constructor; [exact (slot_name_in 0)|].
    constructor; [exact (slot_name_in 1)|constructor].
Defined.
